(** * Language resolution and translation loading

    A model of [src/util/common-translation.ts]: the resolver that picks the
    language of the user interface ([findAvailableLanguage],
    [getLocalLanguage]) and the loader that fetches and memoises translation
    bundles ([fetchTranslation], [getTranslation]).

    Conventions of the model.
    - Strings are sequences of ASCII characters; [toLowerCase] acts on the
      letters A-Z, as the JavaScript method does on such strings.
    - An object used as a dictionary is the list of its own properties in the
      order [Object.keys] enumerates them; [prop_get] reads one of these
      own properties; [prop_in] and [prop_index] are the [in] operator and
      the index expression, which also see the names every object inherits
      from [Object.prototype].
    - A function that may throw returns a [completion]; [JSON.parse], whose
      result has the type [any], returns a [value].
    - The promise an async function returns is identified with the promise
      it is resolved with.
    - The loader runs on a single thread: a call of [getTranslation] and the
      reaction to a settled request are atomic steps over the module state
      (the cache, the promises created so far, and the requests issued). *)

From Stdlib Require Import Ascii String.
From stdpp Require Import gmap strings list pretty.
From Equations Require Import Equations.

Set Default Proof Using "Type".

Local Open Scope string_scope.
Local Open Scope list_scope.

(** ** Strings *)

Definition lower_ascii (c : ascii) : ascii :=
  let n := nat_of_ascii c in
  if (65 <=? n)%nat && (n <=? 90)%nat then ascii_of_nat (n + 32) else c.

(** [String.prototype.toLowerCase]. *)
Fixpoint toLowerCase (s : string) : string :=
  match s with
  | EmptyString => EmptyString
  | String c rest => String (lower_ascii c) (toLowerCase rest)
  end.

(** [strip_prefix p s] is the rest of [s] after its prefix [p], if [s] starts
    with [p]. *)
Fixpoint strip_prefix (p s : string) : option string :=
  match p, s with
  | EmptyString, _ => Some s
  | String a p', String b s' =>
      if bool_decide (a = b) then strip_prefix p' s' else None
  | String _ _, EmptyString => None
  end.

(** [String.prototype.replace] with a string pattern: only the first
    occurrence of [pattern] is replaced.  The replacement is used literally
    (the source replaces by the empty string, which holds no [$] pattern). *)
Fixpoint replace (pattern replacement s : string) : string :=
  match strip_prefix pattern s with
  | Some rest => replacement +:+ rest
  | None =>
      match s with
      | EmptyString => EmptyString
      | String c s' => String c (replace pattern replacement s')
      end
  end.

(** [String.prototype.includes]. *)
Fixpoint includes (s pattern : string) : bool :=
  match strip_prefix pattern s with
  | Some _ => true
  | None =>
      match s with
      | EmptyString => false
      | String _ s' => includes s' pattern
      end
  end.

(** [s.split("-")[0]]: the text before the first hyphen, the whole of [s]
    when it has none. *)
Fixpoint before_hyphen (s : string) : string :=
  match s with
  | EmptyString => EmptyString
  | String c s' =>
      if bool_decide (c = "-"%char) then EmptyString
      else String c (before_hyphen s')
  end.

(** Truthiness of a string: every string but the empty one. *)
Definition truthy_string (s : string) : bool :=
  match s with EmptyString => false | String _ _ => true end.

(** ** Objects used as dictionaries *)

Definition dict (A : Type) : Type := list (string * A).

(** The own property [key] of [o], if it has one. *)
Fixpoint prop_get {A : Type} (o : dict A) (key : string) : option A :=
  match o with
  | [] => None
  | (k, v) :: rest => if bool_decide (k = key) then Some v else prop_get rest key
  end.

(** The names an object created by a literal or by [JSON.parse] inherits
    from [Object.prototype]. *)
Definition Object_prototype_names : list string :=
  [ "constructor"; "__defineGetter__"; "__defineSetter__"; "hasOwnProperty";
    "__lookupGetter__"; "__lookupSetter__"; "isPrototypeOf";
    "propertyIsEnumerable"; "toString"; "valueOf"; "__proto__";
    "toLocaleString" ].

(** [key in o]: an own property or an inherited one. *)
Definition prop_in {A : Type} (key : string) (o : dict A) : bool :=
  bool_decide (is_Some (prop_get o key))
  || bool_decide (key ∈ Object_prototype_names).

Definition Object_keys {A : Type} (o : dict A) : list string := o.*1.

(** ** Values and completions *)

(** What a function that is not type-checked at run time may be handed:
    [JSON.parse] returns [any].  A value that is neither a string nor
    [undefined] is described by the two things the resolver observes of it:
    whether it is truthy, and the property key it converts to ([None] when the
    conversion itself throws). *)
Inductive value : Type :=
  | VUndefined
  | VString (s : string)
  | VOther (is_truthy : bool) (key : option string).

Inductive exn : Type :=
  | TypeError
  | SyntaxError
  | Error (message : string).

Inductive completion (A : Type) : Type :=
  | Normal (a : A)
  | Throw (e : exn).
Arguments Normal {A} a.
Arguments Throw {A} e.

#[global] Instance completion_ret : MRet completion := @Normal.

#[global] Instance completion_bind : MBind completion :=
  λ A B k m, match m with
             | Normal a => k a
             | Throw e => Throw e
             end.

(** [try { body } catch (e) { handler }]. *)
Definition try_catch {A : Type} (body : completion A) (handler : exn → completion A) : completion A :=
  match body with
  | Normal a => Normal a
  | Throw e => handler e
  end.

Definition truthy (v : value) : bool :=
  match v with
  | VUndefined => false
  | VString s => truthy_string s
  | VOther t _ => t
  end.

Definition ToPropertyKey (v : value) : completion string :=
  match v with
  | VUndefined => Normal "undefined"
  | VString s => Normal s
  | VOther _ (Some k) => Normal k
  | VOther _ None => Throw TypeError
  end.

(** The value of an inherited property: the built-in function of that name
    ([Object] for "constructor", the prototype object itself for
    "__proto__").  It is truthy and no string; its key form is the text the
    engines print for it. *)
Definition inherited_value (name : string) : value :=
  VOther true
    (Some (if bool_decide (name = "__proto__") then "[object Object]"
           else "function "
                +:+ (if bool_decide (name = "constructor") then "Object" else name)
                +:+ "() { [native code] }")).

(** [o[key]]: the own property, else the inherited one, else nothing
    ([undefined]). *)
Definition prop_index {A : Type} (o : dict A) (key : string) : option (A + value) :=
  match prop_get o key with
  | Some a => Some (inl a)
  | None =>
      if bool_decide (key ∈ Object_prototype_names)
      then Some (inr (inherited_value key))
      else None
  end.

(** ** The language resolver *)

(** An entry of [translationMetadata.translations]. *)
Record Metadata : Type := { hash : string }.

(** Chinese locales need map to Simplified or Traditional Chinese. *)
Definition LOCALE_LOOKUP : dict string :=
  [ ("zh-cn", "zh-Hans");
    ("zh-sg", "zh-Hans");
    ("zh-my", "zh-Hans");
    ("zh-tw", "zh-Hant");
    ("zh-hk", "zh-Hant");
    ("zh-mo", "zh-Hant");
    ("zh", "zh-Hant") ].
Arguments LOCALE_LOOKUP : simpl never.

(** [window.localStorage || {}]: the one entry the module reads. *)
Record Storage : Type := { selectedLanguage : option string }.

(** [navigator]: [languages] may be missing (the source tests for it);
    [language] is a string. *)
Record Navigator : Type := {
  navigator_languages : option (list string);
  navigator_language : string
}.

(** What [fetchTranslationPreferences] resolves with when the backend holds
    a preference; it resolves with [null] otherwise. *)
Record TranslationPreferences : Type := { preference_language : string }.

Definition value_of_option (o : option string) : value :=
  match o with
  | Some s => VString s
  | None => VUndefined
  end.

(** The value of an index expression on a dictionary of strings. *)
Definition value_of_index (o : option (string + value)) : value :=
  match o with
  | Some (inl s) => VString s
  | Some (inr inherited) => inherited
  | None => VUndefined
  end.

Section Translation.

(** [translationMetadata.translations], imported from the generated
    resources. *)
Variable translationMetadata : dict Metadata.

(** [JSON.parse] of the host. *)
Variable JSON_parse : string → completion value.

(** Search for a matching translation from most specific to general. *)
Definition findAvailableLanguage (language : value) : completion value :=
  key ← ToPropertyKey language;
  if prop_in key translationMetadata then Normal language
  else
    match language with
    | VString s =>
        let langLower := toLowerCase s in
        if prop_in langLower LOCALE_LOOKUP
        then Normal (value_of_index (prop_index LOCALE_LOOKUP langLower))
        else Normal (value_of_option
               (List.find (fun lang => bool_decide (toLowerCase lang = langLower))
                  (Object_keys translationMetadata)))
    | _ => Throw TypeError
    end.

(** The block of [getLocalLanguage] guarded by [STORAGE.selectedLanguage]:
    [Some language] when the block returns [language], [None] when control
    leaves it, also through the [catch]. *)
Definition stored_language (STORAGE : Storage) : completion (option value) :=
  match selectedLanguage STORAGE with
  | Some raw =>
      if truthy_string raw then
        try_catch
          (stored ← JSON_parse raw;
           if truthy stored then
             language ← findAvailableLanguage stored;
             if truthy language then mret (Some language) else mret None
           else mret None)
          (λ _, (* Ignore parsing error. *) mret None)
      else mret None
  | None => mret None
  end.

(** The loop [for (const locale of navigator.languages)]. *)
Fixpoint preferred_language (locales : list string) : completion (option value) :=
  match locales with
  | [] => mret None
  | locale :: rest =>
      language ← findAvailableLanguage (VString locale);
      if truthy language then mret (Some language) else preferred_language rest
  end.

(** The block guarded by [navigator.language && navigator.language.includes("-")]. *)
Definition base_language (navigator : Navigator) : completion (option value) :=
  if truthy_string (navigator_language navigator)
     && includes (navigator_language navigator) "-"
  then
    language ← findAvailableLanguage (VString (before_hyphen (navigator_language navigator)));
    if truthy language then mret (Some language) else mret None
  else mret None.

(** Get browser specific language. *)
Definition getLocalLanguage (STORAGE : Storage) (navigator : Navigator) : completion value :=
  returned ← stored_language STORAGE;
  match returned with
  | Some language => mret language
  | None =>
      returned ← match navigator_languages navigator with
                 | Some locales => preferred_language locales
                 | None => mret None
                 end;
      match returned with
      | Some language => mret language
      | None =>
          language ← findAvailableLanguage (VString (navigator_language navigator));
          if truthy language then mret language
          else
            returned ← base_language navigator;
            match returned with
            | Some language => mret language
            | None => (* Final fallback *) mret (VString "en")
            end
      end
  end.

(** Get user selected language from backend.  [fetched] is what the awaited
    [fetchTranslationPreferences(hass)] settles to; the result [None] is
    [null], and a [Throw] is the rejection of the promise returned. *)
Definition getUserLanguage (fetched : completion (option TranslationPreferences)) :
    completion (option value) :=
  result ← fetched;
  let language := match result with
                  | Some preferences => Some (preference_language preferences)
                  | None => None
                  end in
  match language with
  | Some language =>
      if truthy_string language then
        availableLanguage ← findAvailableLanguage (VString language);
        if truthy availableLanguage then mret (Some availableLanguage) else mret None
      else mret None
  | None => mret None
  end.

(** *** The resolver as the specification words it

    The signals in the order of their priority; the first one that resolves
    through [findAvailableLanguage] wins, and "en" is the fixed fallback. *)

Definition stored_signal (STORAGE : Storage) : list value :=
  match selectedLanguage STORAGE with
  | Some raw =>
      if truthy_string raw then
        match JSON_parse raw with
        | Normal stored => if truthy stored then [stored] else []
        | Throw _ => []
        end
      else []
  | None => []
  end.

Definition base_signal (navigator : Navigator) : list value :=
  if truthy_string (navigator_language navigator)
     && includes (navigator_language navigator) "-"
  then [VString (before_hyphen (navigator_language navigator))]
  else [].

(** The signals the browser reports. *)
Definition browser_signals (navigator : Navigator) : list value :=
  ((VString <$> default [] (navigator_languages navigator))
   ++ [VString (navigator_language navigator)]
   ++ base_signal navigator)%list.

Definition signals (STORAGE : Storage) (navigator : Navigator) : list value :=
  (stored_signal STORAGE ++ browser_signals navigator)%list.

(** A signal resolves when [findAvailableLanguage] returns a truthy value
    for it. *)
Definition resolves (signal : value) : option value :=
  match findAvailableLanguage signal with
  | Normal language => if truthy language then Some language else None
  | Throw _ => None
  end.

Definition first_resolved (STORAGE : Storage) (navigator : Navigator) : value :=
  default (VString "en") (head (omap resolves (signals STORAGE navigator))).

(** *** The translation loader *)

(** The parsed body of a translation bundle. *)
Context {Data : Type}.

(** A call of [fetch]: the path and the [credentials] option. *)
Record Request : Type := { url : string; credentials : string }.

(** How a request ends: [fetch] rejects, or it resolves to a response with a
    status and a body, [body] being what [response.json()] settles to. *)
Inductive Response : Type :=
  | NetworkError
  | Http (status : N) (body : completion Data).

(** [response.ok]: the status is in the range 200-299. *)
Definition ok (status : N) : bool := ((200 <=? status) && (status <=? 299))%N.

(** What a call of the async function [getTranslation] hands back: a promise
    that follows the cache entry [p], or one rejected by a [throw]. *)
Inductive handle : Type :=
  | Cached (p : nat)
  | Thrown (e : exn).

(** What the handlers chained on a request close over. *)
Record Job : Type := {
  job_fragment : option string;
  job_language : string;
  job_supervisor : bool;
  job_fingerprint : string
}.

(** A promise stored in the cache: waiting for its request, fulfilled with
    [{ language, data }], rejected, or resolved with the promise that the
    fallback call returned. *)
Inductive promise : Type :=
  | Pending (job : Job)
  | Fulfilled (language : string) (data : Data)
  | Rejected (error : exn)
  | Follows (h : handle).

(** The module state: [translations] is the in-memory cache, from a
    fingerprint to the promise stored under it; [promises] holds the promises
    created so far, a promise being known by its index; [requests] lists the
    calls of [fetch], the latest first.  The cache holds the own properties
    of the object: it is indexed by fingerprints only, and no fingerprint is
    a name inherited from [Object.prototype]
    ([fingerprint_of_not_inherited]). *)
Record State : Type := {
  translations : gmap string nat;
  promises : list promise;
  requests : list Request
}.

Definition initial : State :=
  {| translations := ∅; promises := []; requests := [] |}.

(** The path [fetchTranslation] requests. *)
Definition fetch_path (fingerprint : string) (supervisor : bool) : string :=
  if supervisor
  then "/api/hassio/app/static/translations/" +:+ replace "supervisor/" "" fingerprint
  else "/static/translations/" +:+ fingerprint.

Definition fetch_request (fingerprint : string) (supervisor : bool) : Request :=
  {| url := fetch_path fingerprint supervisor; credentials := "same-origin" |}.

(** [fetchTranslation] after its [await]: the value or the error the promise
    it returned settles to. *)
Definition fetchTranslation_settled (fingerprint : string) (response : Response) : completion Data :=
  match response with
  | NetworkError => Throw TypeError
  | Http status body =>
      if negb (ok status)
      then Throw (Error ("Fail to fetch translation " +:+ fingerprint
                         +:+ ": HTTP response status is " +:+ pretty status))
      else body
  end.

(** nl-abcd.jon or logbook/nl-abcd.json *)
Definition fingerprint_of (fragment : option string) (language : string) (metadata : Metadata) : string :=
  match fragment with
  | Some f => if truthy_string f then f +:+ "/" else ""
  | None => ""
  end +:+ language +:+ "-" +:+ hash metadata +:+ ".json".

(** The statements of [getTranslation] after the metadata was found: the
    cache is consulted and, on a miss, the request is issued and the promise
    chained on it is stored. *)
Definition load (fragment : option string) (language : string) (metadata : Metadata)
    (supervisor : bool) (σ : State) : handle * State :=
  let fingerprint := fingerprint_of fragment language metadata in
  match translations σ !! fingerprint with
  | Some p => (Cached p, σ)
  | None =>
      let p := length (promises σ) in
      (Cached p,
       {| translations := <[fingerprint := p]> (translations σ);
          promises := promises σ ++ [Pending {| job_fragment := fragment;
                                                job_language := language;
                                                job_supervisor := supervisor;
                                                job_fingerprint := fingerprint |}];
          requests := fetch_request fingerprint supervisor :: requests σ |})
  end.

(** [translationMetadata.translations[language]] as [getTranslation] uses
    it: nothing when the value is falsy, else the record with the text that
    the template prints for [metadata.hash] - the hash of an own entry, and
    "undefined" for an inherited value, which has no such property. *)
Definition translations_entry (language : string) : option Metadata :=
  match prop_index translationMetadata language with
  | Some (inl metadata) => Some metadata
  | Some (inr inherited) =>
      if truthy inherited then Some {| hash := "undefined" |} else None
  | None => None
  end.

(** The fallback to "en" can be taken once only. *)
Definition fallbacks_left (language : string) : nat :=
  if bool_decide (language = "en") then 0 else 1.

Equations getTranslation (fragment : option string) (language : string)
    (supervisor : bool) (σ : State) : handle * State
    by wf (fallbacks_left language) lt :=
getTranslation fragment language supervisor σ
    with translations_entry language := {
  | Some metadata => load fragment language metadata supervisor σ
  | None with decide (language ≠ "en") := {
    | left _ => getTranslation fragment "en" supervisor σ
    | right _ => (Thrown (Error "Language en is not found in metadata"), σ) } }.
Next Obligation.
  unfold fallbacks_left.
  rewrite (bool_decide_eq_false_2 (language = "en")) by done.
  rewrite bool_decide_eq_true_2 by done. lia.
Qed.

(** *** Requests that end

    The promise stored in the cache is
    [fetchTranslation(..).then(..).catch(..)]: when the request ends, the
    [then] handler fulfils it with [{ language, data }], or the [catch]
    handler removes the cache entry and falls back to "en". *)

Definition set_promise (p : nat) (state : promise) (σ : State) : State :=
  {| translations := translations σ;
     promises := <[p := state]> (promises σ);
     requests := requests σ |}.

(** [delete translations[fingerprint]]. *)
Definition uncache (fingerprint : string) (σ : State) : State :=
  {| translations := delete fingerprint (translations σ);
     promises := promises σ;
     requests := requests σ |}.

Definition settle (p : nat) (response : Response) (σ : State) : State :=
  match promises σ !! p with
  | Some (Pending job) =>
      match fetchTranslation_settled (job_fingerprint job) response with
      | Normal data => set_promise p (Fulfilled (job_language job) data) σ
      | Throw error =>
          let σ1 := uncache (job_fingerprint job) σ in
          if decide (job_language job ≠ "en") then
            (* Couldn't load selected translation. Try a fall back to en
               before failing. *)
            let r := getTranslation (job_fragment job) "en" (job_supervisor job) σ1 in
            set_promise p (Follows r.1) r.2
          else set_promise p (Rejected error) σ1
      end
  | _ => σ
  end.

(** One turn of the event loop that touches the module: somebody calls
    [getTranslation], or a request ends and the handlers chained on it run. *)
Inductive step : State → State → Prop :=
  | step_call σ fragment language supervisor :
      step σ (getTranslation fragment language supervisor σ).2
  | step_settle σ p response :
      step σ (settle p response σ).

Definition reachable (σ : State) : Prop := rtc step initial σ.

(** What a promise handed back by [getTranslation] is settled to. *)
Inductive settles_to (σ : State) : handle → completion (string * Data) → Prop :=
  | settles_thrown e :
      settles_to σ (Thrown e) (Throw e)
  | settles_fulfilled p language data :
      promises σ !! p = Some (Fulfilled language data) →
      settles_to σ (Cached p) (Normal (language, data))
  | settles_rejected p error :
      promises σ !! p = Some (Rejected error) →
      settles_to σ (Cached p) (Throw error)
  | settles_follows p h result :
      promises σ !! p = Some (Follows h) →
      settles_to σ h result →
      settles_to σ (Cached p) result.

(** The requests still in flight: a promise is pending exactly as long as
    the request it is chained on has not ended. *)
Definition in_flight (σ : State) (p : nat) (fingerprint : string) : Prop :=
  ∃ job, promises σ !! p = Some (Pending job) ∧ job_fingerprint job = fingerprint.

(** Coherence of the cache with the promises: a pending promise is the
    entry stored under its own fingerprint, and an entry of the cache is a
    promise that is pending under that fingerprint or fulfilled. *)
Definition pending_cached (σ : State) (p : nat) : Prop :=
  ∀ job, promises σ !! p = Some (Pending job) →
         translations σ !! job_fingerprint job = Some p.

Definition cached_live (σ : State) : Prop :=
  ∀ fingerprint p, translations σ !! fingerprint = Some p →
    in_flight σ p fingerprint
    ∨ ∃ language data, promises σ !! p = Some (Fulfilled language data).

Definition coherent (σ : State) : Prop :=
  (∀ p, pending_cached σ p) ∧ cached_live σ.

(** The three ways a call of [getTranslation] can go. *)
Inductive call_effect (σ : State) : handle * State → Prop :=
  | call_throws e :
      call_effect σ (Thrown e, σ)
  | call_hits fingerprint p :
      translations σ !! fingerprint = Some p →
      call_effect σ (Cached p, σ)
  | call_fetches job :
      translations σ !! job_fingerprint job = None →
      call_effect σ
        (Cached (length (promises σ)),
         {| translations := <[job_fingerprint job := length (promises σ)]> (translations σ);
            promises := promises σ ++ [Pending job];
            requests := fetch_request (job_fingerprint job) (job_supervisor job)
                        :: requests σ |}).

(** The state in which the [catch] handler of promise [p] runs after its
    [delete]: coherent but for [p], which the cache no longer holds. *)
Definition coherent_without (p : nat) (σ : State) : Prop :=
  (∀ q, q ≠ p → pending_cached σ q)
  ∧ cached_live σ
  ∧ (∀ fingerprint, translations σ !! fingerprint ≠ Some p)
  ∧ p < length (promises σ).

(** The requested path as the specification words it: in supervisor mode a
    literal "supervisor/" prefix is stripped from the fragment part before it
    is substituted into the path. *)
Definition fragment_part (fragment : option string) : string :=
  match fragment with
  | Some f => if truthy_string f then f +:+ "/" else ""
  | None => ""
  end.

Definition spec_fetch_path (fragment : option string) (language : string)
    (metadata : Metadata) (supervisor : bool) : string :=
  if supervisor
  then "/api/hassio/app/static/translations/"
       +:+ default (fragment_part fragment) (strip_prefix "supervisor/" (fragment_part fragment))
       +:+ language +:+ "-" +:+ hash metadata +:+ ".json"
  else "/static/translations/"
       +:+ fragment_part fragment +:+ language +:+ "-" +:+ hash metadata +:+ ".json".

(** *** What every promise and every request of a run satisfy *)

(** The handlers of a request close over the arguments of the call that
    issued it: a language that the index expression finds in the metadata
    and the fingerprint computed from it. *)
Definition job_from_call (job : Job) : Prop :=
  ∃ metadata,
    translations_entry (job_language job) = Some metadata
    ∧ job_fingerprint job
      = fingerprint_of (job_fragment job) (job_language job) metadata.

Definition promise_from_call (state : promise) : Prop :=
  match state with
  | Pending job => job_from_call job
  | Fulfilled language _ => is_Some (translations_entry language)
  | Rejected _ | Follows _ => True
  end.

Definition same_origin_get (request : Request) : Prop :=
  credentials request = "same-origin"
  ∧ (is_Some (strip_prefix "/static/translations/" (url request))
     ∨ is_Some (strip_prefix "/api/hassio/app/static/translations/" (url request))).

Definition accounted (σ : State) : Prop :=
  Forall promise_from_call (promises σ)
  ∧ length (requests σ) = length (promises σ)
  ∧ Forall same_origin_get (requests σ).

End Translation.

(** ** Sample data

    The metadata and the host functions the examples run on. *)

Definition sample_metadata : dict Metadata :=
  [ ("en", {| hash := "abc" |}); ("fr", {| hash := "f00" |}) ].

(** A table with two keys that differ by their letter case only, and one
    that lists the Chinese script variants. *)
Definition regional_metadata : dict Metadata :=
  [ ("en", {| hash := "abc" |}); ("pt-BR", {| hash := "b01" |});
    ("pt-br", {| hash := "b02" |}) ].

Definition chinese_metadata : dict Metadata :=
  [ ("en", {| hash := "abc" |}); ("zh-Hans", {| hash := "c01" |});
    ("zh-Hant", {| hash := "c02" |}) ].

Definition quote : ascii := ascii_of_nat 34.
Definition backslash : ascii := ascii_of_nat 92.

(** The characters of a JSON string literal up to its closing quote, which
    has to end the text; a literal with an escape is not read. *)
Fixpoint literal_body (text : string) : option string :=
  match text with
  | EmptyString => None
  | String c rest =>
      if bool_decide (c = quote)
      then match rest with EmptyString => Some EmptyString | String _ _ => None end
      else if bool_decide (c = backslash) then None
      else String c <$> literal_body rest
  end.

(** [JSON.parse] on the texts of the examples: the keywords and the string
    literals without escapes are read, and a text that is not JSON is
    rejected.  Numbers, arrays, objects and escapes are not used there and
    are not read. *)
Definition JSON_parse_literal (text : string) : completion value :=
  if bool_decide (text = "null") then Normal (VOther false (Some "null"))
  else if bool_decide (text = "true") then Normal (VOther true (Some "true"))
  else if bool_decide (text = "false") then Normal (VOther false (Some "false"))
  else match text with
       | String c rest =>
           if bool_decide (c = quote)
           then match literal_body rest with
                | Some s => Normal (VString s)
                | None => Throw SyntaxError
                end
           else Throw SyntaxError
       | EmptyString => Throw SyntaxError
       end.

(** The JSON text of a string without special characters. *)
Definition quoted (s : string) : string := String quote (s +:+ String quote EmptyString).

(** ** Sample runs *)

(** A run of the loader: "logbook" is asked for in French, the request ends
    with status 404, and the request for the English bundle that the handler
    has issued succeeds. *)
Definition fr_called : State (Data:=string) :=
  (getTranslation sample_metadata (Some "logbook") "fr" false initial).2.

Definition fr_failed : State (Data:=string) :=
  settle sample_metadata 0 (Http 404 (Throw SyntaxError)) fr_called.

Definition en_loaded : State (Data:=string) :=
  settle sample_metadata 1 (Http 200 (Normal "bundle")) fr_failed.

Definition fr_job : Job :=
  {| job_fragment := Some "logbook"; job_language := "fr";
     job_supervisor := false; job_fingerprint := "logbook/fr-f00.json" |}.

Definition en_called : State (Data:=string) :=
  (getTranslation sample_metadata (Some "logbook") "en" false initial).2.

(** A run on a table without "en": the French bundle is asked for. *)
Definition fr_only : dict Metadata := [ ("fr", {| hash := "f00" |}) ].

Definition fr_only_called : State (Data:=string) :=
  (getTranslation fr_only (Some "logbook") "fr" false initial).2.

(** A table in which "en" and "en-a" have the same fingerprint, and the run
    in which the request for "en-a" fails. *)
Definition colliding_metadata : dict Metadata :=
  [ ("en", {| hash := "a-b" |}); ("en-a", {| hash := "b" |}) ].

Definition en_a_called : State (Data:=string) :=
  (getTranslation colliding_metadata None "en-a" false initial).2.

Definition en_a_failed : State (Data:=string) :=
  settle colliding_metadata 0 NetworkError en_a_called.

Ltac by_evaluation := apply (bool_decide_unpack _); vm_compute; exact I.


(** * Properties *)

Section Properties.

Context (translationMetadata : dict Metadata).
Context (JSON_parse : string → completion value).
Context {Data : Type}.

Local Abbreviation findAvailableLanguage := (findAvailableLanguage translationMetadata).
Local Abbreviation stored_language := (stored_language translationMetadata JSON_parse).
Local Abbreviation preferred_language := (preferred_language translationMetadata).
Local Abbreviation base_language := (base_language translationMetadata).
Local Abbreviation getLocalLanguage := (getLocalLanguage translationMetadata JSON_parse).
Local Abbreviation stored_signal := (stored_signal JSON_parse).
Local Abbreviation signals := (signals JSON_parse).
Local Abbreviation resolves := (resolves translationMetadata).
Local Abbreviation first_resolved := (first_resolved translationMetadata JSON_parse).
Local Abbreviation translations_entry := (translations_entry translationMetadata).
Local Abbreviation getTranslation := (getTranslation translationMetadata (Data:=Data)).
Local Abbreviation settle := (settle translationMetadata (Data:=Data)).
Local Abbreviation step := (step translationMetadata (Data:=Data)).
Local Abbreviation reachable := (reachable translationMetadata (Data:=Data)).
Local Abbreviation State := (State (Data:=Data)).
Local Abbreviation Response := (Response (Data:=Data)).
Local Abbreviation fetchTranslation_settled := (fetchTranslation_settled (Data:=Data)).

Implicit Types (σ τ : State) (response : Response) (job : Job).
Implicit Types (fragment : option string) (fingerprint : string).
Implicit Types (supervisor : bool) (metadata : Metadata) (p q : nat).


(** ** Strings *)

Lemma append_assoc (a b c : string) : (a +:+ b) +:+ c = a +:+ b +:+ c.
Proof.
  induction a as [|x a IH]; [done|].
  change (String x ((a +:+ b) +:+ c) = String x (a +:+ b +:+ c)). by rewrite IH.
Qed.

Lemma strip_prefix_append (prefix rest : string) :
  strip_prefix prefix (prefix +:+ rest) = Some rest.
Proof.
  induction prefix as [|c prefix IH]; simpl; [done|].
  by rewrite bool_decide_eq_true_2.
Qed.

(** ** Dictionaries *)

Lemma prop_get_is_Some {A : Type} (o : dict A) (key : string) :
  is_Some (prop_get o key) ↔ key ∈ Object_keys o.
Proof.
  unfold Object_keys. induction o as [|[k v] o IH]; simpl.
  - split; [intros [? [=]] | intros ?%elem_of_nil; done].
  - case_bool_decide as Hk; rewrite elem_of_cons.
    + split; [intros _; left; done | eauto].
    + rewrite IH. split; [by right | intros [->|?]; done].
Qed.

Lemma prop_get_None {A : Type} (o : dict A) (key : string) :
  prop_get o key = None ↔ key ∉ Object_keys o.
Proof. rewrite <- prop_get_is_Some, eq_None_not_Some. done. Qed.

Lemma prop_in_true {A : Type} (o : dict A) (key : string) :
  prop_in key o = true ↔ key ∈ Object_keys o ∨ key ∈ Object_prototype_names.
Proof.
  unfold prop_in. rewrite orb_true_iff, !bool_decide_eq_true.
  by rewrite prop_get_is_Some.
Qed.

Lemma prop_in_false {A : Type} (o : dict A) (key : string) :
  prop_in key o = false ↔ (key ∉ Object_keys o) ∧ (key ∉ Object_prototype_names).
Proof.
  unfold prop_in. rewrite orb_false_iff, !bool_decide_eq_false.
  by rewrite prop_get_is_Some.
Qed.

Lemma prop_in_own {A : Type} (o : dict A) (key : string) :
  key ∈ Object_keys o → prop_in key o = true.
Proof. intros Hkey. apply prop_in_true. by left. Qed.

Lemma prop_index_own {A : Type} (o : dict A) (key : string) (a : A) :
  prop_get o key = Some a → prop_index o key = Some (inl a).
Proof. intros Ha. unfold prop_index. by rewrite Ha. Qed.

Lemma prop_index_inherited {A : Type} (o : dict A) (key : string) :
  key ∉ Object_keys o →
  key ∈ Object_prototype_names →
  prop_index o key = Some (inr (inherited_value key)).
Proof.
  intros Hown%prop_get_None Hname. unfold prop_index.
  by rewrite Hown, bool_decide_eq_true_2.
Qed.

Lemma prop_index_None {A : Type} (o : dict A) (key : string) :
  prop_index o key = None ↔ (key ∉ Object_keys o) ∧ (key ∉ Object_prototype_names).
Proof.
  unfold prop_index. rewrite <- prop_get_None.
  destruct (prop_get o key); [split; [done | by intros [? _]]|].
  case_bool_decide; split; try done. by intros [_ ?].
Qed.

(** No name of [Object.prototype] is written in lower case as a key of the
    alias table is. *)
Lemma alias_key_not_inherited (s : string) :
  toLowerCase s ∈ Object_keys LOCALE_LOOKUP → s ∉ Object_prototype_names.
Proof.
  intros Hlow Hname. unfold Object_prototype_names in Hname.
  repeat (apply elem_of_cons in Hname as [-> | Hname];
          [by vm_compute in Hlow; repeat (apply elem_of_cons in Hlow as [? | Hlow]; [done|]);
              apply elem_of_nil in Hlow |]).
  by apply elem_of_nil in Hname.
Qed.

(** ** The resolver *)

Lemma findAvailableLanguage_VString (s : string) :
  findAvailableLanguage (VString s) =
  if prop_in s translationMetadata then Normal (VString s)
  else if prop_in (toLowerCase s) LOCALE_LOOKUP
       then Normal (value_of_index (prop_index LOCALE_LOOKUP (toLowerCase s)))
       else Normal (value_of_option
              (List.find (λ lang, bool_decide (toLowerCase lang = toLowerCase s))
                 (Object_keys translationMetadata))).
Proof. reflexivity. Qed.

Lemma findAvailableLanguage_string (s : string) :
  ∃ result, findAvailableLanguage (VString s) = Normal result.
Proof.
  rewrite findAvailableLanguage_VString.
  destruct (prop_in s translationMetadata); [eauto|].
  destruct (prop_in (toLowerCase s) LOCALE_LOOKUP); eauto.
Qed.

Lemma find_key_in_keys (P : string → bool) (keys : list string) (code : string) :
  List.find P keys = Some code → code ∈ keys.
Proof. intros [Hin _]%find_some. by apply list_elem_of_In. Qed.

Lemma LOCALE_LOOKUP_values (key target : string) :
  prop_get LOCALE_LOOKUP key = Some target → target = "zh-Hans" ∨ target = "zh-Hant".
Proof.
  unfold LOCALE_LOOKUP. simpl.
  repeat (case_bool_decide; [intros [= <-]; auto |]). done.
Qed.

(** C6: a code that is a key of the supported-language table is returned as
    it is by [findAvailableLanguage]. *)
Theorem findAvailableLanguage_exact (code : string) :
  code ∈ Object_keys translationMetadata →
  findAvailableLanguage (VString code) = Normal (VString code).
Proof.
  intros Hcode%prop_in_own. rewrite findAvailableLanguage_VString.
  by rewrite Hcode.
Qed.

Lemma findAvailableLanguage_alias (s target : string) :
  s ∉ Object_keys translationMetadata →
  prop_get LOCALE_LOOKUP (toLowerCase s) = Some target →
  findAvailableLanguage (VString s) = Normal (VString target).
Proof.
  intros Hs Htarget.
  assert (toLowerCase s ∈ Object_keys LOCALE_LOOKUP) as Hlow.
  { apply prop_get_is_Some. by rewrite Htarget. }
  rewrite findAvailableLanguage_VString.
  rewrite (proj2 (prop_in_false _ _)) by (split; [done | by apply alias_key_not_inherited]).
  by rewrite (prop_in_own _ _ Hlow), (prop_index_own _ _ _ Htarget).
Qed.

(** C7: a Chinese regional code of the alias table, written in any letter
    case and not itself a key of the table, resolves to its script variant:
    "zh-Hans" for zh-cn, zh-sg and zh-my, "zh-Hant" for zh-tw, zh-hk, zh-mo
    and the bare zh. *)
Theorem findAvailableLanguage_chinese (s : string) :
  s ∉ Object_keys translationMetadata →
  (toLowerCase s ∈ ["zh-cn"; "zh-sg"; "zh-my"] →
   findAvailableLanguage (VString s) = Normal (VString "zh-Hans"))
  ∧ (toLowerCase s ∈ ["zh-tw"; "zh-hk"; "zh-mo"; "zh"] →
     findAvailableLanguage (VString s) = Normal (VString "zh-Hant")).
Proof.
  intros Hs. split; intros Hlow; apply findAvailableLanguage_alias; try done;
    repeat (apply elem_of_cons in Hlow as [-> | Hlow]; [reflexivity |]);
    by apply elem_of_nil in Hlow.
Qed.

(** *** [getLocalLanguage] against the ordered list of signals *)

Lemma head_omap_app {A B : Type} (f : A → option B) (l1 l2 : list A) :
  head (omap f (l1 ++ l2)%list) =
  match head (omap f l1) with
  | Some b => Some b
  | None => head (omap f l2)
  end.
Proof.
  induction l1 as [|a l1 IH]; simpl; [done|].
  destruct (f a); simpl; done.
Qed.

Lemma resolves_string (s : string) :
  ∃ language, findAvailableLanguage (VString s) = Normal language
    ∧ resolves (VString s) = if truthy language then Some language else None.
Proof.
  destruct (findAvailableLanguage_string s) as [language Hl].
  exists language. unfold resolves. by rewrite Hl.
Qed.

Lemma stored_language_signal (STORAGE : Storage) :
  stored_language STORAGE = Normal (head (omap resolves (stored_signal STORAGE))).
Proof.
  unfold stored_language, stored_signal.
  destruct (selectedLanguage STORAGE) as [raw|]; [|done].
  destruct (truthy_string raw); [|done].
  destruct (JSON_parse raw) as [stored|e]; simpl; [|done].
  destruct (truthy stored); simpl; [|done].
  unfold resolves.
  destruct (findAvailableLanguage stored) as [language|e]; simpl; [|done].
  by destruct (truthy language).
Qed.

Lemma preferred_language_signal (locales : list string) :
  preferred_language locales = Normal (head (omap resolves (VString <$> locales))).
Proof.
  induction locales as [|locale rest IH]; simpl; [done|].
  destruct (resolves_string locale) as (language & -> & ->). simpl.
  by destruct (truthy language).
Qed.

Lemma base_language_signal (navigator : Navigator) :
  base_language navigator = Normal (head (omap resolves (base_signal navigator))).
Proof.
  unfold base_language, base_signal.
  destruct (truthy_string _ && includes _ _); [|done]. simpl.
  destruct (resolves_string (before_hyphen (navigator_language navigator)))
    as (language & -> & ->). simpl.
  by destruct (truthy language).
Qed.

Lemma resolves_truthy (signal language : value) :
  resolves signal = Some language → truthy language = true.
Proof.
  unfold resolves. destruct (findAvailableLanguage signal) as [l|]; [|done].
  destruct (truthy l) eqn:Hl; [|done]. by intros [= <-].
Qed.

Lemma first_resolved_truthy (STORAGE : Storage) (navigator : Navigator) :
  truthy (first_resolved STORAGE navigator) = true.
Proof.
  unfold first_resolved.
  destruct (head _) as [language|] eqn:Hhead; simpl; [|done].
  apply head_Some_elem_of, list_elem_of_omap in Hhead as (signal & _ & Hres).
  by eapply resolves_truthy.
Qed.

(** What the three branches of the resolver can return on a string. *)
Lemma findAvailableLanguage_results (s : string) (result : value) :
  findAvailableLanguage (VString s) = Normal result →
  result = VUndefined
  ∨ (∃ code, result = VString code
       ∧ (code ∈ Object_keys translationMetadata ∨ code = "zh-Hans" ∨ code = "zh-Hant"))
  ∨ (result = VString s ∧ s ∈ Object_prototype_names)
  ∨ (result = inherited_value (toLowerCase s)
     ∧ toLowerCase s ∈ Object_prototype_names).
Proof.
  rewrite findAvailableLanguage_VString.
  destruct (prop_in s translationMetadata) eqn:Hkey.
  { intros [= <-]. apply prop_in_true in Hkey as [Hown|Hname]; [|by auto].
    right; left. exists s. auto. }
  destruct (prop_in (toLowerCase s) LOCALE_LOOKUP) eqn:Halias.
  { unfold prop_index.
    destruct (prop_get LOCALE_LOOKUP (toLowerCase s)) as [target|] eqn:Htarget.
    - intros [= <-]. right; left. exists target. split; [done|]. right.
      by eapply LOCALE_LOOKUP_values.
    - apply prop_in_true in Halias as [Hown%prop_get_is_Some|Hname].
      + rewrite Htarget in Hown. by destruct Hown.
      + rewrite bool_decide_eq_true_2 by done. intros [= <-]. auto. }
  destruct (List.find _ _) as [code|] eqn:Hfind; intros [= <-]; [|by left].
  right; left. exists code. split; [done|]. left. apply (find_key_in_keys _ _ _ Hfind).
Qed.

Lemma findAvailableLanguage_ordinary (s : string) (result : value) :
  s ∉ Object_prototype_names →
  toLowerCase s ∉ Object_prototype_names →
  findAvailableLanguage (VString s) = Normal result →
  result = VUndefined
  ∨ ∃ code, result = VString code
      ∧ (code ∈ Object_keys translationMetadata ∨ code = "zh-Hans" ∨ code = "zh-Hant").
Proof.
  intros Hs Hlow Hresult.
  destruct (findAvailableLanguage_results _ _ Hresult)
    as [?|[?|[[_ ?]|[_ ?]]]]; auto; done.
Qed.

Lemma resolves_ordinary (s : string) (language : value) :
  s ∉ Object_prototype_names →
  toLowerCase s ∉ Object_prototype_names →
  resolves (VString s) = Some language →
  ∃ code, language = VString code ∧ code ≠ EmptyString
    ∧ (code ∈ Object_keys translationMetadata ∨ code = "zh-Hans" ∨ code = "zh-Hant").
Proof.
  intros Hs Hlow. unfold resolves.
  destruct (findAvailableLanguage (VString s)) as [result|] eqn:Hresult; [|done].
  destruct (truthy result) eqn:Htruthy; [|done]. intros [= <-].
  destruct (findAvailableLanguage_ordinary _ _ Hs Hlow Hresult)
    as [-> | (code & -> & Hcode)]; [done|].
  exists code. split_and!; [done| |done]. by intros ->.
Qed.

Lemma first_resolved_code (STORAGE : Storage) (navigator : Navigator) :
  (∀ signal, signal ∈ signals STORAGE navigator →
     ∃ s, signal = VString s
       ∧ (s ∉ Object_prototype_names) ∧ (toLowerCase s ∉ Object_prototype_names)) →
  ∃ code, first_resolved STORAGE navigator = VString code ∧ code ≠ EmptyString
    ∧ (code ∈ Object_keys translationMetadata
       ∨ code = "zh-Hans" ∨ code = "zh-Hant" ∨ code = "en").
Proof.
  intros Hsignals. unfold first_resolved.
  destruct (head _) as [language|] eqn:Hhead; simpl;
    [|exists "en"; split_and!; [done..|]; by auto].
  apply head_Some_elem_of, list_elem_of_omap in Hhead as (signal & Hsignal & Hres).
  destruct (Hsignals _ Hsignal) as (s & -> & Hs & Hlow).
  destruct (resolves_ordinary _ _ Hs Hlow Hres) as (code & -> & Hne & Hcode).
  exists code. split_and!; [done..|]. destruct Hcode as [?|[?|?]]; auto.
Qed.

Lemma first_resolved_cases (STORAGE : Storage) (navigator : Navigator) :
  first_resolved STORAGE navigator =
  match head (omap resolves (stored_signal STORAGE)) with
  | Some language => language
  | None =>
      match head (omap resolves (VString <$> default [] (navigator_languages navigator))) with
      | Some language => language
      | None =>
          match resolves (VString (navigator_language navigator)) with
          | Some language => language
          | None => default (VString "en") (head (omap resolves (base_signal navigator)))
          end
      end
  end.
Proof.
  unfold first_resolved, signals, browser_signals. rewrite !head_omap_app.
  destruct (head (omap resolves (stored_signal STORAGE))); [done|].
  destruct (head (omap resolves (VString <$> _))); [done|].
  change (omap resolves [VString (navigator_language navigator)])
    with (match resolves (VString (navigator_language navigator)) with
          | Some language => [language]
          | None => []
          end).
  by destruct (resolves (VString (navigator_language navigator))).
Qed.

Lemma getLocalLanguage_signals (STORAGE : Storage) (navigator : Navigator) :
  getLocalLanguage STORAGE navigator = Normal (first_resolved STORAGE navigator).
Proof.
  rewrite first_resolved_cases. unfold getLocalLanguage.
  rewrite stored_language_signal.
  destruct (head (omap resolves (stored_signal STORAGE))); [done|].
  assert (match navigator_languages navigator with
          | Some locales => preferred_language locales
          | None => mret None
          end = Normal (head (omap resolves
                  (VString <$> default [] (navigator_languages navigator))))) as Hpref.
  { destruct (navigator_languages navigator); simpl;
      [apply preferred_language_signal | done]. }
  cbn [mbind completion_bind]. rewrite Hpref.
  destruct (head (omap resolves (VString <$> _))); [done|].
  destruct (resolves_string (navigator_language navigator)) as (language & -> & ->).
  cbn [mbind completion_bind].
  destruct (truthy language); [done|].
  rewrite base_language_signal. cbn [mbind completion_bind].
  by destruct (head (omap resolves (base_signal navigator))).
Qed.

(** C5, as the code has it: [getLocalLanguage] never fails and never returns
    none: it returns the first of the signals - the stored selection, the
    entries of [navigator.languages] in their order, [navigator.language],
    its base subtag when it holds a hyphen - for which
    [findAvailableLanguage] returns a truthy value, that value, and "en" when
    there is none.  The value is a language code - a string that is not
    empty: a key of the metadata, an alias target or "en" - when every signal
    is a string that neither is nor lower-cases to a name inherited from
    [Object.prototype]. *)
Theorem getLocalLanguage_first_resolved (STORAGE : Storage) (navigator : Navigator) :
  getLocalLanguage STORAGE navigator = Normal (first_resolved STORAGE navigator)
  ∧ truthy (first_resolved STORAGE navigator) = true
  ∧ first_resolved STORAGE navigator ≠ VUndefined
  ∧ ((∀ signal, signal ∈ signals STORAGE navigator →
        ∃ s, signal = VString s
          ∧ (s ∉ Object_prototype_names) ∧ (toLowerCase s ∉ Object_prototype_names)) →
     ∃ code, first_resolved STORAGE navigator = VString code ∧ code ≠ EmptyString
       ∧ (code ∈ Object_keys translationMetadata
          ∨ code = "zh-Hans" ∨ code = "zh-Hant" ∨ code = "en")).
Proof.
  split_and!.
  - apply getLocalLanguage_signals.
  - apply first_resolved_truthy.
  - intros Hund. pose proof (first_resolved_truthy STORAGE navigator) as Ht.
    by rewrite Hund in Ht.
  - apply first_resolved_code.
Qed.

Lemma stored_language_malformed (STORAGE : Storage) (raw : string) (e : exn) :
  selectedLanguage STORAGE = Some raw →
  JSON_parse raw = Throw e →
  stored_language STORAGE = Normal None ∧ stored_signal STORAGE = [].
Proof.
  intros Hraw Hparse. unfold stored_language, stored_signal. rewrite Hraw.
  destruct (truthy_string raw); [|done]. by rewrite Hparse.
Qed.

(** C8: a stored [selectedLanguage] that [JSON.parse] rejects raises no error
    in [getLocalLanguage]: the guarded block ends without a result, and the
    function goes on to the signals of the browser - the entries of
    [navigator.languages] in their order, [navigator.language], its base
    subtag - and returns the first of them that resolves, "en" when none
    does, which is what it returns when nothing is stored. *)
Theorem getLocalLanguage_malformed_store (STORAGE : Storage) (navigator : Navigator)
    (raw : string) (e : exn) :
  selectedLanguage STORAGE = Some raw →
  JSON_parse raw = Throw e →
  stored_language STORAGE = Normal None
  ∧ getLocalLanguage STORAGE navigator
    = Normal (default (VString "en") (head (omap resolves (browser_signals navigator))))
  ∧ getLocalLanguage STORAGE navigator
    = getLocalLanguage {| selectedLanguage := None |} navigator.
Proof.
  intros Hraw Hparse.
  destruct (stored_language_malformed _ _ _ Hraw Hparse) as [Hblock Hsignal].
  split_and!; [done| |].
  - rewrite getLocalLanguage_signals. unfold first_resolved, signals.
    by rewrite Hsignal.
  - unfold getLocalLanguage. by rewrite Hblock.
Qed.

(** ** The loader *)

Lemma translations_entry_own (language : string) metadata :
  prop_get translationMetadata language = Some metadata →
  translations_entry language = Some metadata.
Proof.
  intros Hm. unfold translations_entry.
  by rewrite (prop_index_own _ _ _ Hm).
Qed.

Lemma translations_entry_inherited (language : string) :
  language ∉ Object_keys translationMetadata →
  language ∈ Object_prototype_names →
  translations_entry language = Some {| hash := "undefined" |}.
Proof.
  intros Hown Hname. unfold translations_entry.
  by rewrite prop_index_inherited.
Qed.

Lemma translations_entry_None (language : string) :
  translations_entry language = None
  ↔ (language ∉ Object_keys translationMetadata) ∧ (language ∉ Object_prototype_names).
Proof.
  rewrite <- prop_index_None. unfold translations_entry.
  unfold prop_index. destruct (prop_get translationMetadata language); [done|].
  by case_bool_decide.
Qed.

Lemma translations_entry_Some (language : string) :
  is_Some (translations_entry language)
  ↔ language ∈ Object_keys translationMetadata ∨ language ∈ Object_prototype_names.
Proof.
  rewrite <- not_eq_None_Some, translations_entry_None. split.
  - intros Hnot.
    destruct (decide (language ∈ Object_keys translationMetadata)); [by left|].
    destruct (decide (language ∈ Object_prototype_names)); [by right|].
    by destruct Hnot.
  - intros [?|?] [? ?]; done.
Qed.

Lemma en_not_inherited : "en" ∉ Object_prototype_names.
Proof. by_evaluation. Qed.

Lemma translations_entry_en :
  translations_entry "en" = prop_get translationMetadata "en".
Proof.
  destruct (prop_get translationMetadata "en") as [metadata|] eqn:Hen.
  - by apply translations_entry_own.
  - apply translations_entry_None. split; [by apply prop_get_None | apply en_not_inherited].
Qed.

Lemma getTranslation_found fragment language metadata supervisor σ :
  translations_entry language = Some metadata →
  getTranslation fragment language supervisor σ
  = load fragment language metadata supervisor σ.
Proof. intros Hm. simp getTranslation. by rewrite Hm. Qed.

Lemma getTranslation_own fragment language metadata supervisor σ :
  prop_get translationMetadata language = Some metadata →
  getTranslation fragment language supervisor σ
  = load fragment language metadata supervisor σ.
Proof. intros Hm%translations_entry_own. by apply getTranslation_found. Qed.

Lemma getTranslation_fallback fragment language supervisor σ :
  translations_entry language = None →
  language ≠ "en" →
  getTranslation fragment language supervisor σ
  = getTranslation fragment "en" supervisor σ.
Proof.
  intros Hm Hen. rewrite (getTranslation_equation_1 translationMetadata fragment language).
  rewrite Hm. simpl. by destruct (decide (language ≠ "en")).
Qed.

Lemma getTranslation_no_default fragment supervisor σ :
  "en" ∉ Object_keys translationMetadata →
  getTranslation fragment "en" supervisor σ
  = (Thrown (Error "Language en is not found in metadata"), σ).
Proof.
  intros Hm%prop_get_None. rewrite <- translations_entry_en in Hm.
  simp getTranslation. by rewrite Hm.
Qed.

Lemma load_hit fragment language metadata supervisor σ p :
  translations σ !! fingerprint_of fragment language metadata = Some p →
  load fragment language metadata supervisor σ = (Cached p, σ).
Proof. intros Hp. unfold load. by rewrite Hp. Qed.

Lemma load_miss fragment language metadata supervisor σ :
  translations σ !! fingerprint_of fragment language metadata = None →
  load fragment language metadata supervisor σ
  = (Cached (length (promises σ)),
     {| translations := <[fingerprint_of fragment language metadata := length (promises σ)]>
                          (translations σ);
        promises := promises σ
                    ++ [Pending {| job_fragment := fragment;
                                   job_language := language;
                                   job_supervisor := supervisor;
                                   job_fingerprint := fingerprint_of fragment language metadata |}];
        requests := fetch_request (fingerprint_of fragment language metadata) supervisor
                    :: requests σ |}).
Proof. intros Hp. unfold load. by rewrite Hp. Qed.

(** C1, as the code has it: a language that is no key of the metadata and no
    name inherited from [Object.prototype] falls back to "en": the call
    returns what the call for "en" returns; when "en" itself is not listed
    the call fails with the configuration error, the state left as it was.
    A name inherited from [Object.prototype] is found by the index
    expression: the call goes on with it, its hash printed as "undefined". *)
Theorem getTranslation_missing_metadata fragment language supervisor σ :
  language ∉ Object_keys translationMetadata →
  (language ∉ Object_prototype_names →
   (language ≠ "en" →
    getTranslation fragment language supervisor σ
    = getTranslation fragment "en" supervisor σ)
   ∧ (language = "en" →
      getTranslation fragment language supervisor σ
      = (Thrown (Error "Language en is not found in metadata"), σ)))
  ∧ (language ∈ Object_prototype_names →
     getTranslation fragment language supervisor σ
     = load fragment language {| hash := "undefined" |} supervisor σ).
Proof.
  intros Habsent. split.
  - intros Hname. split.
    + intros Hen. apply getTranslation_fallback; [|done].
      by apply translations_entry_None.
    + intros ->. by apply getTranslation_no_default.
  - intros Hname. apply getTranslation_found. by apply translations_entry_inherited.
Qed.

Lemma replace_prefix (pattern replacement rest : string) :
  replace pattern replacement (pattern +:+ rest) = replacement +:+ rest.
Proof.
  assert (strip_prefix pattern (pattern +:+ rest) = Some rest) as Hstrip.
  { induction pattern as [|c pattern IH]; simpl; [done|].
    by rewrite bool_decide_eq_true_2. }
  destruct (pattern +:+ rest); simpl; by rewrite Hstrip.
Qed.

(** C4, as the code has it: the fingerprint is the fragment followed by "/"
    (nothing for a null or empty fragment), the language, "-", its hash and
    ".json"; on a cache miss the path requested is "/static/translations/"
    and the fingerprint, and in supervisor mode
    "/api/hassio/app/static/translations/" and the fingerprint without its
    first occurrence of "supervisor/", wherever that occurrence stands; for a
    fingerprint that begins with "supervisor/" this strips the prefix. *)
Theorem getTranslation_request fragment language metadata supervisor σ :
  prop_get translationMetadata language = Some metadata →
  translations σ !! fingerprint_of fragment language metadata = None →
  (fragment = None ∨ fragment = Some EmptyString →
   fingerprint_of fragment language metadata
   = language +:+ "-" +:+ hash metadata +:+ ".json")
  ∧ (∀ f, fragment = Some f → f ≠ EmptyString →
       fingerprint_of fragment language metadata
       = f +:+ "/" +:+ language +:+ "-" +:+ hash metadata +:+ ".json")
  ∧ requests (getTranslation fragment language supervisor σ).2
    = {| url := if supervisor
                then "/api/hassio/app/static/translations/"
                     +:+ replace "supervisor/" "" (fingerprint_of fragment language metadata)
                else "/static/translations/" +:+ fingerprint_of fragment language metadata;
         credentials := "same-origin" |} :: requests σ
  ∧ translations (getTranslation fragment language supervisor σ).2
    !! fingerprint_of fragment language metadata = Some (length (promises σ))
  ∧ ∀ rest, fingerprint_of fragment language metadata = "supervisor/" +:+ rest →
      fetch_path (fingerprint_of fragment language metadata) true
      = "/api/hassio/app/static/translations/" +:+ rest.
Proof.
  intros Hm Hmiss. rewrite (getTranslation_own _ _ metadata) by done.
  rewrite load_miss by done. simpl. split_and!.
  - by intros [-> | ->].
  - intros f -> Hf. unfold fingerprint_of.
    destruct f; [by destruct Hf | ]. cbn [truthy_string]. apply append_assoc.
  - by destruct supervisor.
  - apply lookup_insert_eq.
  - intros rest ->. unfold fetch_path. by rewrite replace_prefix.
Qed.

(** C10: the cache key leaves the supervisor flag out: once an entry is
    stored under the fingerprint of a fragment and a language, a call in
    either mode returns that entry and changes nothing, so it issues no
    request to the path of its own mode; this holds right after the call of
    the other mode that stored the entry, and after the entry is fulfilled. *)
Theorem getTranslation_shared_between_modes fragment language metadata :
  prop_get translationMetadata language = Some metadata →
  (∀ σ p supervisor,
     translations σ !! fingerprint_of fragment language metadata = Some p →
     getTranslation fragment language supervisor σ = (Cached p, σ))
  ∧ (∀ σ supervisor,
       getTranslation fragment language (negb supervisor)
         (getTranslation fragment language supervisor σ).2
       = getTranslation fragment language supervisor σ)
  ∧ (∀ σ supervisor p status data,
       getTranslation fragment language supervisor σ = (Cached p, σ) →
       ok status = true →
       getTranslation fragment language (negb supervisor)
         (settle p (Http status (Normal data)) σ)
       = (Cached p, settle p (Http status (Normal data)) σ)).
Proof.
  intros Hm. split_and!.
  - intros σ p supervisor Hp.
    rewrite (getTranslation_own _ _ metadata) by done. by apply load_hit.
  - intros σ supervisor.
    rewrite !(getTranslation_own _ _ metadata) by done.
    destruct (translations σ !! fingerprint_of fragment language metadata) as [p|] eqn:Hp.
    + rewrite (load_hit _ _ _ supervisor _ p) by done. simpl. by apply load_hit.
    + rewrite (load_miss _ _ _ supervisor) by done. simpl.
      apply load_hit. simpl. apply lookup_insert_eq.
  - intros σ supervisor p status data Hcall Hok.
    rewrite !(getTranslation_own _ _ metadata) in * by done.
    assert (translations σ !! fingerprint_of fragment language metadata = Some p) as Hp.
    { unfold load in Hcall.
      destruct (translations σ !! fingerprint_of fragment language metadata) as [q|];
        [by injection Hcall as -> | ].
      injection Hcall as _ Hσ. apply (f_equal (λ τ, length (promises τ))) in Hσ.
      simpl in Hσ. rewrite length_app in Hσ. simpl in Hσ. lia. }
    apply load_hit.
    assert (translations (settle p (Http status (Normal data)) σ) = translations σ) as ->; [|done].
    unfold settle. destruct (promises σ !! p) as [[job| | |]|]; try done.
    simpl. by rewrite Hok.
Qed.

(** *** The keys of the cache *)

Lemma includes_append (before pattern after : string) :
  includes (before +:+ pattern +:+ after) pattern = true.
Proof.
  induction before as [|c before IH].
  - change (includes (pattern +:+ after) pattern = true).
    destruct (pattern +:+ after) eqn:Htext; simpl; rewrite <- Htext;
      by rewrite strip_prefix_append.
  - change (includes (String c (before +:+ pattern +:+ after)) pattern = true).
    simpl. rewrite IH. by destruct (strip_prefix pattern _).
Qed.

(** A fingerprint ends in ".json", which no inherited name holds. *)
Lemma fingerprint_of_not_inherited fragment (language : string) metadata :
  fingerprint_of fragment language metadata ∉ Object_prototype_names.
Proof.
  assert (includes (fingerprint_of fragment language metadata) ".json" = true) as Hjson.
  { unfold fingerprint_of. rewrite <- !append_assoc.
    apply (includes_append _ ".json" EmptyString). }
  intros Hname. unfold Object_prototype_names in Hname.
  repeat (apply elem_of_cons in Hname as [Heq | Hname];
          [rewrite Heq in Hjson; vm_compute in Hjson; discriminate Hjson |]).
  by apply elem_of_nil in Hname.
Qed.

(** *** Coherence of the cache in every reachable state *)

Lemma load_effect fragment language metadata supervisor σ :
  call_effect σ (load fragment language metadata supervisor σ).
Proof.
  destruct (translations σ !! fingerprint_of fragment language metadata) as [p|] eqn:Hp.
  - rewrite (load_hit _ _ _ _ _ p) by done. by eapply call_hits.
  - rewrite load_miss by done.
    by apply (call_fetches σ {| job_fragment := fragment; job_language := language;
                                job_supervisor := supervisor;
                                job_fingerprint := fingerprint_of fragment language metadata |}).
Qed.

Lemma getTranslation_effect fragment language supervisor σ :
  call_effect σ (getTranslation fragment language supervisor σ).
Proof.
  funelim (getTranslation fragment language supervisor σ).
  - apply load_effect.
  - done.
  - apply call_throws.
Qed.

Lemma call_effect_promises σ r :
  call_effect σ r → ∃ new, promises r.2 = promises σ ++ new.
Proof.
  destruct 1; simpl; [exists []; by rewrite app_nil_r ..|eauto].
Qed.

Lemma call_effect_lookup σ r p state :
  call_effect σ r → promises σ !! p = Some state → promises r.2 !! p = Some state.
Proof.
  intros [new ->]%call_effect_promises Hp. by apply lookup_app_l_Some.
Qed.

Lemma call_effect_cache σ r fingerprint p :
  call_effect σ r →
  translations r.2 !! fingerprint = Some p →
  translations σ !! fingerprint = Some p ∨ p = length (promises σ).
Proof.
  destruct 1 as [| |job Hmiss]; simpl; [auto..|].
  destruct (decide (job_fingerprint job = fingerprint)) as [->|Hne].
  - rewrite lookup_insert_eq. intros [= <-]. by right.
  - rewrite lookup_insert_ne by done. auto.
Qed.

Lemma call_effect_pending_cached σ r p :
  call_effect σ r → pending_cached σ p → pending_cached r.2 p.
Proof.
  destruct 1 as [| |job Hmiss]; simpl; [done..|].
  intros Hp job' Hjob'. simpl in *.
  destruct (decide (p < length (promises σ))) as [Hlt|Hge].
  - rewrite lookup_app_l in Hjob' by done.
    pose proof (Hp _ Hjob') as Hcached.
    rewrite lookup_insert_ne; [done|]. intros Heq. congruence.
  - destruct (decide (p = length (promises σ))) as [->|Hne].
    + rewrite list_lookup_middle in Hjob' by done.
      injection Hjob' as <-. apply lookup_insert_eq.
    + rewrite lookup_ge_None_2 in Hjob'; [done|].
      rewrite length_app. simpl. lia.
Qed.

Lemma call_effect_cached_live σ r :
  call_effect σ r → cached_live σ → cached_live r.2.
Proof.
  destruct 1 as [| |job Hmiss]; simpl; [done..|].
  intros Hlive fingerprint p. simpl.
  destruct (decide (job_fingerprint job = fingerprint)) as [<-|Hne].
  - rewrite lookup_insert_eq. intros [= <-]. left. exists job. simpl.
    by rewrite list_lookup_middle.
  - rewrite lookup_insert_ne by done. intros Hp.
    destruct (Hlive _ _ Hp) as [(job' & Hjob' & Hfp)|(language & data & Hful)].
    + left. exists job'. simpl. split; [|done]. by apply lookup_app_l_Some.
    + right. exists language, data. simpl. by apply lookup_app_l_Some.
Qed.

Lemma call_effect_coherent σ r :
  call_effect σ r → coherent σ → coherent r.2.
Proof.
  intros Hr [Hpending Hlive]. split.
  - intros p. by apply (call_effect_pending_cached σ).
  - by apply (call_effect_cached_live σ).
Qed.

Lemma uncache_coherent_without σ p job :
  coherent σ →
  promises σ !! p = Some (Pending job) →
  coherent_without p (uncache (job_fingerprint job) σ).
Proof.
  intros [Hpending Hlive] Hp.
  pose proof (Hpending p job Hp) as Hcached.
  split_and!; simpl.
  - intros q Hq job' Hjob'. simpl in *.
    pose proof (Hpending q job' Hjob') as Hq'.
    rewrite lookup_delete_ne; [done|]. intros Heq. rewrite Heq in Hcached. congruence.
  - intros fingerprint q Hq. simpl in Hq.
    apply lookup_delete_Some in Hq as [Hne Hq].
    destruct (Hlive _ _ Hq) as [(job' & Hjob' & Hfp)|(language & data & Hful)].
    + left. by exists job'.
    + right. by exists language, data.
  - intros fingerprint Hq. simpl in Hq.
    apply lookup_delete_Some in Hq as [Hne Hq].
    destruct (Hlive _ _ Hq) as [(job' & Hjob' & Hfp)|(language & data & Hful)];
      congruence.
  - by eapply lookup_lt_Some.
Qed.

Lemma call_effect_coherent_without σ r p :
  call_effect σ r → coherent_without p σ → coherent_without p r.2.
Proof.
  intros Hr (Hpending & Hlive & Hgone & Hlt). split_and!.
  - intros q Hq. apply (call_effect_pending_cached σ); auto.
  - by apply (call_effect_cached_live σ).
  - intros fingerprint Hfp.
    destruct (call_effect_cache _ _ _ _ Hr Hfp) as [Hold| ->]; [by eapply Hgone | lia].
  - destruct (call_effect_promises _ _ Hr) as [new ->]. rewrite length_app. lia.
Qed.

Lemma set_promise_coherent σ p state :
  coherent_without p σ →
  (∀ job, state ≠ Pending job) →
  coherent (set_promise p state σ)
  ∧ (∀ fingerprint, translations (set_promise p state σ) !! fingerprint ≠ Some p)
  ∧ promises (set_promise p state σ) !! p = Some state.
Proof.
  intros (Hpending & Hlive & Hgone & Hlt) Hstate. split_and!; simpl; [split| |].
  - intros q job Hq. simpl in *. destruct (decide (p = q)) as [<-|Hne].
    + rewrite list_lookup_insert_eq in Hq by done. congruence.
    + rewrite list_lookup_insert_ne in Hq by done. by apply Hpending.
  - intros fingerprint q Hq. simpl in *.
    assert (p ≠ q) as Hne by (intros <-; by eapply Hgone).
    destruct (Hlive _ _ Hq) as [(job' & Hjob' & Hfp)|(language & data & Hful)].
    + left. exists job'. simpl. by rewrite list_lookup_insert_ne.
    + right. exists language, data. simpl. by rewrite list_lookup_insert_ne.
  - done.
  - by apply list_lookup_insert_eq.
Qed.

Lemma fulfil_coherent σ p job language data :
  coherent σ →
  promises σ !! p = Some (Pending job) →
  coherent (set_promise p (Fulfilled language data) σ).
Proof.
  intros [Hpending Hlive] Hp.
  assert (p < length (promises σ)) as Hlt by (by eapply lookup_lt_Some).
  split.
  - intros q job' Hq. simpl in *. destruct (decide (p = q)) as [<-|Hne].
    + by rewrite list_lookup_insert_eq in Hq.
    + rewrite list_lookup_insert_ne in Hq by done. by apply Hpending.
  - intros fingerprint q Hq. simpl in *. destruct (decide (p = q)) as [<-|Hne].
    + right. exists language, data. simpl. by rewrite list_lookup_insert_eq.
    + destruct (Hlive _ _ Hq) as [(job' & Hjob' & Hfp)|(l & d & Hful)].
      * left. exists job'. simpl. by rewrite list_lookup_insert_ne.
      * right. exists l, d. simpl. by rewrite list_lookup_insert_ne.
Qed.

Lemma settle_coherent σ p response :
  coherent σ → coherent (settle p response σ).
Proof.
  intros Hσ. unfold settle.
  destruct (promises σ !! p) as [[job| | |]|] eqn:Hp; try done.
  destruct (fetchTranslation_settled _ response) as [data|error].
  - by eapply fulfil_coherent.
  - pose proof (uncache_coherent_without _ _ _ Hσ Hp) as Hσ1.
    destruct (decide (job_language job ≠ "en")).
    + apply set_promise_coherent; [|done].
      apply (call_effect_coherent_without (uncache (job_fingerprint job) σ)); [|done].
      apply getTranslation_effect.
    + by apply set_promise_coherent.
Qed.

Lemma initial_coherent : coherent (initial (Data:=Data)).
Proof.
  split; [intros p job [=] | intros fingerprint p Hp].
  simpl in Hp. by rewrite lookup_empty in Hp.
Qed.

Lemma step_coherent σ σ' : step σ σ' → coherent σ → coherent σ'.
Proof.
  destruct 1.
  - apply call_effect_coherent, getTranslation_effect.
  - apply settle_coherent.
Qed.

Lemma reachable_coherent σ : reachable σ → coherent σ.
Proof.
  unfold reachable. revert σ. apply rtc_ind_r; [apply initial_coherent|].
  intros σ σ' _ Hstep Hσ. by eapply step_coherent.
Qed.

(** *** Requests that fail *)

Lemma settle_failure σ p job response error :
  promises σ !! p = Some (Pending job) →
  fetchTranslation_settled (job_fingerprint job) response = Throw error →
  settle p response σ
  = if decide (job_language job ≠ "en")
    then set_promise p
           (Follows (getTranslation (job_fragment job) "en" (job_supervisor job)
                       (uncache (job_fingerprint job) σ)).1)
           (getTranslation (job_fragment job) "en" (job_supervisor job)
              (uncache (job_fingerprint job) σ)).2
    else set_promise p (Rejected error) (uncache (job_fingerprint job) σ).
Proof. intros Hp Herr. unfold settle. by rewrite Hp, Herr. Qed.

Lemma settle_other σ p q response state :
  p ≠ q →
  promises σ !! q = Some state →
  promises (settle p response σ) !! q = Some state.
Proof.
  intros Hne Hq. unfold settle.
  destruct (promises σ !! p) as [[job| | |]|] eqn:Hp; try done.
  destruct (fetchTranslation_settled _ response) as [data|error]; simpl.
  - by rewrite list_lookup_insert_ne.
  - destruct (decide (job_language job ≠ "en")); simpl.
    + rewrite list_lookup_insert_ne by done.
      by eapply call_effect_lookup; [apply getTranslation_effect|].
    + by rewrite list_lookup_insert_ne.
Qed.

(** A promise that is no longer pending keeps its state. *)
Lemma step_settled σ σ' p state :
  step σ σ' →
  promises σ !! p = Some state →
  (∀ job, state ≠ Pending job) →
  promises σ' !! p = Some state.
Proof.
  intros Hstep Hp Hstate. destruct Hstep as [σ fragment language supervisor|σ q response].
  - by eapply call_effect_lookup; [apply getTranslation_effect|].
  - destruct (decide (q = p)) as [->|Hne]; [|by apply settle_other].
    unfold settle. rewrite Hp. by destruct state; [edestruct Hstate|..].
Qed.

Lemma steps_settled σ σ' p state :
  rtc step σ σ' →
  promises σ !! p = Some state →
  (∀ job, state ≠ Pending job) →
  promises σ' !! p = Some state.
Proof.
  intros Hsteps Hp Hstate. induction Hsteps as [|σ σ1 σ2 Hstep _ IH]; [done|].
  apply IH. by eapply step_settled.
Qed.

Lemma settles_to_follows σ p h result :
  promises σ !! p = Some (Follows h) →
  settles_to σ (Cached p) result ↔ settles_to σ h result.
Proof.
  intros Hp. split.
  - inversion 1 as [| ? ? ? Hful | ? ? Hrej | ? h' ? Hfol Hh]; subst;
      rewrite Hp in *; [done..|]. by injection Hfol as <-.
  - by apply settles_follows.
Qed.

Lemma fetch_after_failure σ p job response error fragment language metadata supervisor :
  promises σ !! p = Some (Pending job) →
  fetchTranslation_settled (job_fingerprint job) response = Throw error →
  translations_entry language = Some metadata →
  fingerprint_of fragment language metadata = job_fingerprint job →
  requests (getTranslation fragment language supervisor (settle p response σ)).2
  = fetch_request (job_fingerprint job) supervisor :: requests (settle p response σ)
  ∨ (job_language job ≠ "en"
     ∧ (∃ en, prop_get translationMetadata "en" = Some en
          ∧ fingerprint_of (job_fragment job) "en" en = job_fingerprint job)
     ∧ in_flight (settle p response σ) (length (promises σ)) (job_fingerprint job)
     ∧ getTranslation fragment language supervisor (settle p response σ)
       = (Cached (length (promises σ)), settle p response σ)).
Proof.
  intros Hp Herr Hm Hfp.
  assert (p < length (promises σ)) as Hlt by (by eapply lookup_lt_Some).
  assert (translations (settle p response σ) !! job_fingerprint job = None →
          requests (getTranslation fragment language supervisor (settle p response σ)).2
          = fetch_request (job_fingerprint job) supervisor :: requests (settle p response σ))
    as Hagain.
  { intros Hq. rewrite (getTranslation_found _ _ metadata) by done.
    rewrite load_miss by (by rewrite Hfp). simpl. by rewrite Hfp. }
  rewrite (settle_failure _ _ _ _ _ Hp Herr) in *.
  destruct (decide (job_language job ≠ "en")) as [Hlang|Hlang];
    [|left; apply Hagain; simpl; apply lookup_delete_eq].
  destruct (prop_get translationMetadata "en") as [en|] eqn:Hen;
    [|left; apply Hagain;
      rewrite getTranslation_no_default by (by apply prop_get_None);
      simpl; apply lookup_delete_eq].
  rewrite !(getTranslation_own (job_fragment job) "en" en) in * by done.
  destruct (translations (uncache (job_fingerprint job) σ)
              !! fingerprint_of (job_fragment job) "en" en) as [q|] eqn:Hq.
  { left. apply Hagain. rewrite (load_hit _ _ _ _ _ q) by done. simpl.
    apply lookup_delete_eq. }
  rewrite !load_miss in * by done. simpl in *.
  destruct (decide (fingerprint_of (job_fragment job) "en" en = job_fingerprint job))
    as [Heq|Hne].
  - right. split_and!; [done|by exists en| |].
    + eexists. simpl.
      split; [rewrite list_lookup_insert_ne by lia; by apply list_lookup_middle | exact Heq].
    + rewrite (getTranslation_found _ _ metadata) by done.
      apply load_hit. simpl. rewrite Hfp, <- Heq. apply lookup_insert_eq.
  - left. apply Hagain. simpl. rewrite lookup_insert_ne by done. apply lookup_delete_eq.
Qed.

(** C2, as the code has it: when the request of a promise fails - the
    transport fails, the status is not a success, or the body cannot be
    read - the handler removes the cache entry of its fingerprint: no entry
    of the cache leads to the failed promise afterwards.  A call made once
    the handler is done issues a new request for that fingerprint, but for
    one case: the failed language was not "en" and "en" has the same
    fingerprint, so that the fallback has already stored its own pending
    entry under it, and the call is given that entry.  For a language other
    than "en" the promise is resolved with what [getTranslation] returns for
    "en", called on the cache without the entry, and follows it from then
    on; for "en" it is rejected with the error, for good. *)
Theorem fetch_failure_falls_back σ p job response error :
  reachable σ →
  promises σ !! p = Some (Pending job) →
  fetchTranslation_settled (job_fingerprint job) response = Throw error →
  fetchTranslation_settled (job_fingerprint job) NetworkError = Throw TypeError
  ∧ (∀ status body, ok status = false →
       ∃ e, fetchTranslation_settled (job_fingerprint job) (Http status body) = Throw e)
  ∧ translations (uncache (job_fingerprint job) σ) !! job_fingerprint job = None
  ∧ (∀ fragment language metadata supervisor,
       translations_entry language = Some metadata →
       fingerprint_of fragment language metadata = job_fingerprint job →
       requests (getTranslation fragment language supervisor
                   (uncache (job_fingerprint job) σ)).2
       = fetch_request (job_fingerprint job) supervisor :: requests σ)
  ∧ (∀ fingerprint, translations (settle p response σ) !! fingerprint ≠ Some p)
  ∧ (∀ fragment language metadata supervisor,
       translations_entry language = Some metadata →
       fingerprint_of fragment language metadata = job_fingerprint job →
       requests (getTranslation fragment language supervisor (settle p response σ)).2
       = fetch_request (job_fingerprint job) supervisor :: requests (settle p response σ)
       ∨ (job_language job ≠ "en"
          ∧ (∃ en, prop_get translationMetadata "en" = Some en
               ∧ fingerprint_of (job_fragment job) "en" en = job_fingerprint job)
          ∧ in_flight (settle p response σ) (length (promises σ)) (job_fingerprint job)
          ∧ getTranslation fragment language supervisor (settle p response σ)
            = (Cached (length (promises σ)), settle p response σ)))
  ∧ (job_language job ≠ "en" →
       settle p response σ
       = set_promise p
           (Follows (getTranslation (job_fragment job) "en" (job_supervisor job)
                       (uncache (job_fingerprint job) σ)).1)
           (getTranslation (job_fragment job) "en" (job_supervisor job)
              (uncache (job_fingerprint job) σ)).2
       ∧ ∀ τ, rtc step (settle p response σ) τ →
           promises τ !! p
           = Some (Follows (getTranslation (job_fragment job) "en" (job_supervisor job)
                              (uncache (job_fingerprint job) σ)).1)
           ∧ ∀ result,
               settles_to τ (Cached p) result
               ↔ settles_to τ (getTranslation (job_fragment job) "en" (job_supervisor job)
                                 (uncache (job_fingerprint job) σ)).1 result)
  ∧ (job_language job = "en" →
       settle p response σ = set_promise p (Rejected error) (uncache (job_fingerprint job) σ)
       ∧ translations (settle p response σ) !! job_fingerprint job = None
       ∧ requests (settle p response σ) = requests σ
       ∧ ∀ τ, rtc step (settle p response σ) τ → settles_to τ (Cached p) (Throw error)).
Proof.
  intros Hσ%reachable_coherent Hp Herr.
  pose proof (uncache_coherent_without _ _ _ Hσ Hp) as Hσ1.
  pose proof (getTranslation_effect (job_fragment job) "en" (job_supervisor job)
                (uncache (job_fingerprint job) σ)) as Heffect.
  pose proof (call_effect_coherent_without _ _ _ Heffect Hσ1) as Hσ2.
  split_and!.
  - done.
  - intros status body Hok. simpl. rewrite Hok. simpl. eauto.
  - simpl. apply lookup_delete_eq.
  - intros fragment language metadata supervisor Hm Hfp.
    rewrite (getTranslation_found _ _ metadata) by done.
    rewrite load_miss by (rewrite Hfp; apply lookup_delete_eq).
    simpl. by rewrite Hfp.
  - rewrite (settle_failure _ _ _ _ _ Hp Herr).
    destruct (decide (job_language job ≠ "en")); by apply set_promise_coherent.
  - intros fragment language metadata supervisor Hm Hfp.
    by eapply fetch_after_failure.
  - intros Hen. rewrite (settle_failure _ _ _ _ _ Hp Herr).
    rewrite decide_True by done. split; [done|].
    intros τ Hτ.
    assert (promises τ !! p
            = Some (Follows (getTranslation (job_fragment job) "en" (job_supervisor job)
                               (uncache (job_fingerprint job) σ)).1)) as Hfollows.
    { eapply steps_settled; [done| |done]. by apply set_promise_coherent. }
    split; [done|]. intros result. by apply settles_to_follows.
  - intros Hen. rewrite (settle_failure _ _ _ _ _ Hp Herr).
    rewrite decide_False by (intros ?; done). split_and!; [done| |done|].
    + simpl. apply lookup_delete_eq.
    + intros τ Hτ. apply settles_rejected.
      eapply steps_settled; [done| |done]. by apply set_promise_coherent.
Qed.

(** *** One request per fingerprint *)

(** Whatever the language asked for, a call consults the cache under the
    fingerprint of the language it ends up with - the one asked for or "en" -
    or throws before it touches anything. *)
Lemma getTranslation_cases fragment language supervisor σ :
  (∃ language' metadata,
     (language' = language ∨ language' = "en")
     ∧ translations_entry language' = Some metadata
     ∧ getTranslation fragment language supervisor σ
       = load fragment language' metadata supervisor σ)
  ∨ getTranslation fragment language supervisor σ
    = (Thrown (Error "Language en is not found in metadata"), σ).
Proof.
  destruct (translations_entry language) as [metadata|] eqn:Hm.
  - left. exists language, metadata. split_and!; [by left|done|].
    by apply getTranslation_found.
  - destruct (decide (language = "en")) as [->|Hen].
    + right. apply getTranslation_no_default. by apply translations_entry_None in Hm as [? _].
    + rewrite getTranslation_fallback by done.
      destruct (translations_entry "en") as [metadata|] eqn:Hm'.
      * left. exists "en", metadata. split_and!; [by right|done|].
        by apply getTranslation_found.
      * right. apply getTranslation_no_default.
        by apply translations_entry_None in Hm' as [? _].
Qed.

(** C3: at most one request is in flight for a fingerprint.  In a reachable
    state two pending promises never share a fingerprint; a call issues a
    request only on finding no entry under the fingerprint it computes, and
    stores the pending entry in the same step, before anything else can run;
    while that entry waits, every call that computes the same fingerprint
    gets it back and issues nothing. *)
Theorem one_request_per_fingerprint σ :
  reachable σ →
  (∀ p q fingerprint,
     in_flight σ p fingerprint → in_flight σ q fingerprint → p = q)
  ∧ (∀ fragment language supervisor,
       requests (getTranslation fragment language supervisor σ).2 ≠ requests σ →
       ∃ language' metadata,
         (language' = language ∨ language' = "en")
         ∧ translations_entry language' = Some metadata
         ∧ translations σ !! fingerprint_of fragment language' metadata = None
         ∧ requests (getTranslation fragment language supervisor σ).2
           = fetch_request (fingerprint_of fragment language' metadata) supervisor
             :: requests σ
         ∧ (getTranslation fragment language supervisor σ).1
           = Cached (length (promises σ))
         ∧ translations (getTranslation fragment language supervisor σ).2
           !! fingerprint_of fragment language' metadata = Some (length (promises σ))
         ∧ in_flight (getTranslation fragment language supervisor σ).2
             (length (promises σ)) (fingerprint_of fragment language' metadata))
  ∧ (∀ p fragment language metadata supervisor,
       translations_entry language = Some metadata →
       in_flight σ p (fingerprint_of fragment language metadata) →
       getTranslation fragment language supervisor σ = (Cached p, σ)).
Proof.
  intros [Hpending Hlive]%reachable_coherent. split_and!.
  - intros p q fingerprint (jobp & Hp & Hfp) (jobq & Hq & Hfq).
    pose proof (Hpending p jobp Hp) as Hcp. pose proof (Hpending q jobq Hq) as Hcq.
    congruence.
  - intros fragment language supervisor Hrequests.
    destruct (getTranslation_cases fragment language supervisor σ)
      as [(language' & metadata & Hlang & Hm & Hcall)|Hcall];
      rewrite Hcall in *; [|done].
    exists language', metadata.
    destruct (translations σ !! fingerprint_of fragment language' metadata) as [p|] eqn:Hp.
    { by rewrite (load_hit _ _ _ _ _ p) in Hrequests. }
    rewrite load_miss by done. simpl. split_and!; try done.
    + apply lookup_insert_eq.
    + eexists. simpl. split; [by apply list_lookup_middle|done].
  - intros p fragment language metadata supervisor Hm (job & Hp & Hfp).
    rewrite (getTranslation_found _ _ metadata) by done.
    apply load_hit. rewrite <- Hfp. by apply Hpending.
Qed.

(** ** More on the resolver *)

Local Abbreviation getUserLanguage := (getUserLanguage translationMetadata).

Lemma find_None_iff (P : string → bool) (keys : list string) :
  List.find P keys = None ↔ ∀ code, code ∈ keys → P code = false.
Proof.
  induction keys as [|k keys IH]; simpl.
  - split; [intros _ code Hcode; by apply elem_of_nil in Hcode | done].
  - destruct (P k) eqn:Hk.
    + split; [done|]. intros Hall. specialize (Hall k (list_elem_of_here _ _)). congruence.
    + rewrite IH. split.
      * intros Hall code [->|Hcode]%elem_of_cons; auto.
      * intros Hall code Hcode. apply Hall. by right.
Qed.

Lemma find_first (P : string → bool) (before after : list string) (code : string) :
  (∀ k, k ∈ before → P k = false) →
  P code = true →
  List.find P (before ++ code :: after) = Some code.
Proof.
  intros Hbefore Hcode. induction before as [|k before IH]; simpl.
  - by rewrite Hcode.
  - rewrite (Hbefore k) by left. apply IH. intros k' Hk'. apply Hbefore. by right.
Qed.

Lemma value_of_option_undefined (o : option string) :
  value_of_option o = VUndefined ↔ o = None.
Proof. by destruct o. Qed.

Lemma prop_index_defined (o : dict string) (key : string) :
  prop_in key o = true → value_of_index (prop_index o key) ≠ VUndefined.
Proof.
  intros Hin. unfold prop_index.
  destruct (prop_get o key) as [target|] eqn:Htarget; [done|].
  apply prop_in_true in Hin as [Hown%prop_get_is_Some|Hname].
  - rewrite Htarget in Hown. by destruct Hown.
  - by rewrite bool_decide_eq_true_2.
Qed.

(** X1: [findAvailableLanguage] returns none for a string exactly when the
    [in] test finds the string neither among the keys of the metadata nor
    among the inherited names, finds its lower-case form neither among the
    keys of the alias table nor among the inherited names, and no key of the
    metadata has that lower-case form. *)
Theorem findAvailableLanguage_none_iff (s : string) :
  findAvailableLanguage (VString s) = Normal VUndefined
  ↔ ((s ∉ Object_keys translationMetadata)
     ∧ (s ∉ Object_prototype_names)
     ∧ (toLowerCase s ∉ Object_keys LOCALE_LOOKUP)
     ∧ (toLowerCase s ∉ Object_prototype_names)
     ∧ (∀ code, code ∈ Object_keys translationMetadata →
                toLowerCase code ≠ toLowerCase s)).
Proof.
  rewrite findAvailableLanguage_VString.
  destruct (prop_in s translationMetadata) eqn:Hkey.
  { split; [done|]. intros (Hown & Hname & _).
    apply prop_in_true in Hkey as [?|?]; done. }
  apply prop_in_false in Hkey as [Hown Hname].
  destruct (prop_in (toLowerCase s) LOCALE_LOOKUP) eqn:Halias.
  { split.
    - intros [= Hnone]. by apply prop_index_defined in Hnone.
    - intros (_ & _ & Hlow & Hlowname & _).
      apply prop_in_true in Halias as [?|?]; done. }
  apply prop_in_false in Halias as [Hlow Hlowname].
  split.
  - intros [= Hnone]. apply value_of_option_undefined in Hnone.
    pose proof (proj1 (find_None_iff _ _) Hnone) as Hall.
    split_and!; [done..|]. intros code Hcode.
    specialize (Hall code Hcode). simpl in Hall.
    by apply bool_decide_eq_false in Hall.
  - intros (_ & _ & _ & _ & Hall). f_equal. apply value_of_option_undefined.
    apply (proj2 (find_None_iff _ _)).
    intros code Hcode. apply bool_decide_eq_false. by apply Hall.
Qed.

(** X2: when neither [in] test applies - the argument is no key of the
    metadata, its lower-case form no key of the alias table, and neither is a
    name inherited from [Object.prototype] - the scan returns the first key,
    in the order of [Object.keys], whose lower-case form is that of the
    argument. *)
Theorem findAvailableLanguage_first_match (s code : string) (before after : list string) :
  s ∉ Object_keys translationMetadata →
  s ∉ Object_prototype_names →
  toLowerCase s ∉ Object_keys LOCALE_LOOKUP →
  toLowerCase s ∉ Object_prototype_names →
  Object_keys translationMetadata = before ++ code :: after →
  toLowerCase code = toLowerCase s →
  (∀ k, k ∈ before → toLowerCase k ≠ toLowerCase s) →
  findAvailableLanguage (VString s) = Normal (VString code).
Proof.
  intros Hs Hname Halias Hlowname Hkeys Hcode Hbefore.
  rewrite findAvailableLanguage_VString.
  rewrite !(proj2 (prop_in_false _ _)) by done. rewrite Hkeys.
  rewrite (find_first _ before after code); [done| |by apply bool_decide_eq_true].
  intros k Hk. by apply bool_decide_eq_false, Hbefore.
Qed.

(** X3: the letter case of an argument matters to the first test only: two
    arguments that this test does not find - no keys and no inherited
    names - and that have the same lower-case form get the same result. *)
Theorem findAvailableLanguage_case_insensitive (s s' : string) :
  s ∉ Object_keys translationMetadata →
  s ∉ Object_prototype_names →
  s' ∉ Object_keys translationMetadata →
  s' ∉ Object_prototype_names →
  toLowerCase s = toLowerCase s' →
  findAvailableLanguage (VString s) = findAvailableLanguage (VString s').
Proof.
  intros Hs Hname Hs' Hname' Hlow.
  rewrite !findAvailableLanguage_VString.
  rewrite (proj2 (prop_in_false translationMetadata s)) by done.
  rewrite (proj2 (prop_in_false translationMetadata s')) by done.
  by rewrite Hlow.
Qed.

(** X4: with both Chinese script variants in the metadata, every string that
    [findAvailableLanguage] returns resolves to itself - resolving twice is
    resolving once - and is a key of the metadata, or the argument itself
    when that is a name inherited from [Object.prototype]. *)
Theorem findAvailableLanguage_idempotent (s code : string) :
  "zh-Hans" ∈ Object_keys translationMetadata →
  "zh-Hant" ∈ Object_keys translationMetadata →
  findAvailableLanguage (VString s) = Normal (VString code) →
  findAvailableLanguage (VString code) = Normal (VString code)
  ∧ (code ∈ Object_keys translationMetadata
     ∨ (code = s ∧ s ∈ Object_prototype_names)).
Proof.
  intros Hans Hant Hs.
  assert (code ∈ Object_keys translationMetadata
          ∨ (code = s ∧ s ∈ Object_prototype_names)) as Hcode.
  { destruct (findAvailableLanguage_results _ _ Hs)
      as [Hnone|[(code' & Hcode' & Hcases)|[[Hself Hname]|[Hbuiltin _]]]].
    - discriminate Hnone.
    - injection Hcode' as <-. destruct Hcases as [?|[->| ->]]; auto.
    - injection Hself as <-. auto.
    - discriminate Hbuiltin. }
  split; [|done]. rewrite findAvailableLanguage_VString.
  assert (prop_in code translationMetadata = true) as ->; [|done].
  apply prop_in_true. destruct Hcode as [?|[-> ?]]; auto.
Qed.

Lemma truthy_string_true (s : string) : truthy_string s = true ↔ s ≠ EmptyString.
Proof. destruct s; simpl; split; done. Qed.

Lemma stored_language_string (STORAGE : Storage) (raw s : string) :
  selectedLanguage STORAGE = Some raw →
  raw ≠ EmptyString →
  JSON_parse raw = Normal (VString s) →
  stored_language STORAGE
  = if truthy_string s
    then language ← findAvailableLanguage (VString s);
         if truthy language then mret (Some language) else mret None
    else mret None.
Proof.
  intros Hraw Hne%truthy_string_true Hparse.
  unfold stored_language. rewrite Hraw, Hne, Hparse. simpl.
  destruct (truthy_string s); [|done].
  destruct (findAvailableLanguage_string s) as [language ->]. simpl.
  by destruct (truthy language).
Qed.

(** X5: a stored selection that names a key of the metadata is the language of
    the client, whatever the browser reports. *)
Theorem getLocalLanguage_stored_first (STORAGE : Storage) (navigator : Navigator)
    (raw s : string) :
  selectedLanguage STORAGE = Some raw →
  raw ≠ EmptyString →
  JSON_parse raw = Normal (VString s) →
  s ≠ EmptyString →
  s ∈ Object_keys translationMetadata →
  getLocalLanguage STORAGE navigator = Normal (VString s).
Proof.
  intros Hraw Hne Hparse Hs%truthy_string_true Hkey%prop_in_own.
  unfold getLocalLanguage.
  rewrite (stored_language_string _ _ _ Hraw Hne Hparse), Hs.
  rewrite (findAvailableLanguage_VString s), Hkey. simpl. by rewrite Hs.
Qed.

(** X6: a stored entry is passed over, as if nothing were stored, not only when
    it is malformed: also when it is the empty text, when it parses to a
    falsy value, when [findAvailableLanguage] throws on the parsed value (a
    value that is not a string and names no key), and when the parsed value
    resolves to nothing. *)
Theorem getLocalLanguage_stored_passed_over (STORAGE : Storage) (navigator : Navigator)
    (raw : string) :
  selectedLanguage STORAGE = Some raw →
  raw = EmptyString
  ∨ (∃ stored, JSON_parse raw = Normal stored
       ∧ (truthy stored = false
          ∨ (∃ e, findAvailableLanguage stored = Throw e)
          ∨ (∃ language, findAvailableLanguage stored = Normal language
               ∧ truthy language = false))) →
  getLocalLanguage STORAGE navigator
  = getLocalLanguage {| selectedLanguage := None |} navigator.
Proof.
  intros Hraw Hcases. unfold getLocalLanguage, stored_language. rewrite Hraw. simpl.
  destruct Hcases as [-> | (stored & Hparse & Hstored)]; [done|].
  destruct (truthy_string raw); [|done]. rewrite Hparse. simpl.
  destruct Hstored as [-> | [[e He] | (language & Hl & Hfalsy)]]; [done| |].
  - destruct (truthy stored); [|done]. by rewrite He.
  - destruct (truthy stored); [|done]. rewrite Hl. simpl. by rewrite Hfalsy.
Qed.

(** X7: with "en" and both Chinese script variants in the metadata,
    [getLocalLanguage] returns a key of the metadata when every signal is a
    string that neither is nor lower-cases to a name inherited from
    [Object.prototype]. *)
Theorem getLocalLanguage_supported (STORAGE : Storage) (navigator : Navigator) :
  "en" ∈ Object_keys translationMetadata →
  "zh-Hans" ∈ Object_keys translationMetadata →
  "zh-Hant" ∈ Object_keys translationMetadata →
  (∀ signal, signal ∈ signals STORAGE navigator →
     ∃ s, signal = VString s
       ∧ (s ∉ Object_prototype_names) ∧ (toLowerCase s ∉ Object_prototype_names)) →
  ∃ code, getLocalLanguage STORAGE navigator = Normal (VString code)
          ∧ code ∈ Object_keys translationMetadata.
Proof.
  intros Hen Hans Hant Hsignals. rewrite getLocalLanguage_signals.
  destruct (first_resolved_code _ _ Hsignals) as (code & -> & _ & Hcode).
  exists code. split; [done|]. by destruct Hcode as [?|[->|[->| ->]]].
Qed.

(** *** The preference of the user *)

Lemma getUserLanguage_preferences (preferences : TranslationPreferences) :
  getUserLanguage (Normal (Some preferences))
  = if truthy_string (preference_language preferences)
    then language ← findAvailableLanguage (VString (preference_language preferences));
         if truthy language then mret (Some language) else mret None
    else mret None.
Proof. reflexivity. Qed.

(** X8: [getUserLanguage] is rejected only when the fetch of the preferences is,
    and with its error.  What it returns otherwise is null or the truthy
    value [findAvailableLanguage] gives for the preference: a code that is
    not empty - a key of the metadata or one of the two alias targets - when
    the preference neither is nor lower-cases to a name inherited from
    [Object.prototype]. *)
Theorem getUserLanguage_result (fetched : completion (option TranslationPreferences)) :
  (∀ e, getUserLanguage fetched = Throw e ↔ fetched = Throw e)
  ∧ (∀ language, getUserLanguage fetched = Normal (Some language) →
       ∃ preferences,
         fetched = Normal (Some preferences)
         ∧ findAvailableLanguage (VString (preference_language preferences))
           = Normal language
         ∧ truthy language = true
         ∧ ((preference_language preferences ∉ Object_prototype_names) →
            (toLowerCase (preference_language preferences) ∉ Object_prototype_names) →
            ∃ code, language = VString code
              ∧ code ≠ EmptyString
              ∧ (code ∈ Object_keys translationMetadata
                 ∨ code = "zh-Hans" ∨ code = "zh-Hant"))).
Proof.
  destruct fetched as [[preferences|]|e'].
  - rewrite getUserLanguage_preferences.
    destruct (truthy_string (preference_language preferences)); [|by split].
    destruct (findAvailableLanguage_string (preference_language preferences))
      as [result Hresult].
    rewrite Hresult. simpl.
    destruct (truthy result) eqn:Htruthy; [|by split].
    split; [done|]. intros language [= <-].
    exists preferences. split_and!; [done..|]. intros Hname Hlow.
    apply (resolves_ordinary (preference_language preferences)); [done..|].
    unfold resolves. by rewrite Hresult, Htruthy.
  - by split.
  - split; [|done]. intros e. simpl. split; by intros [= ->].
Qed.

(** X9: the preference of the user and the stored selection are resolved alike:
    a language that [getUserLanguage] returns for a preference is the one
    [getLocalLanguage] returns when the store holds that preference. *)
Theorem getUserLanguage_as_stored (preferences : TranslationPreferences)
    (STORAGE : Storage) (navigator : Navigator) (raw : string) (language : value) :
  getUserLanguage (Normal (Some preferences)) = Normal (Some language) →
  selectedLanguage STORAGE = Some raw →
  raw ≠ EmptyString →
  JSON_parse raw = Normal (VString (preference_language preferences)) →
  getLocalLanguage STORAGE navigator = Normal language.
Proof.
  rewrite getUserLanguage_preferences. intros Huser Hraw Hne Hparse.
  unfold getLocalLanguage.
  rewrite (stored_language_string _ _ _ Hraw Hne Hparse).
  destruct (truthy_string (preference_language preferences)); [|done].
  destruct (findAvailableLanguage_string (preference_language preferences))
    as [result Hresult].
  rewrite Hresult in *. simpl in *.
  destruct (truthy result); [|done]. by injection Huser as ->.
Qed.

(** ** More on the loader *)

Local Abbreviation accounted := (accounted translationMetadata (Data:=Data)).
Local Abbreviation promise_from_call := (promise_from_call translationMetadata (Data:=Data)).
Local Abbreviation job_from_call := (job_from_call translationMetadata).

(** The language a call ends up with, and what it does with it. *)
Lemma getTranslation_resolved fragment (language : string) supervisor σ :
  (∃ language' metadata,
     translations_entry language' = Some metadata
     ∧ (language' = language
        ∨ (language' = "en" ∧ translations_entry language = None))
     ∧ getTranslation fragment language supervisor σ
       = load fragment language' metadata supervisor σ)
  ∨ (translations_entry language = None
     ∧ ("en" ∉ Object_keys translationMetadata)
     ∧ getTranslation fragment language supervisor σ
       = (Thrown (Error "Language en is not found in metadata"), σ)).
Proof.
  destruct (translations_entry language) as [metadata|] eqn:Hm.
  - left. exists language, metadata. split_and!; [done|by left|].
    by apply getTranslation_found.
  - destruct (prop_get translationMetadata "en") as [metadata|] eqn:Hm'.
    + left. exists "en", metadata. split_and!; [by apply translations_entry_own|by right|].
      destruct (decide (language = "en")) as [->|Hen].
      * apply translations_entry_own in Hm'. congruence.
      * rewrite getTranslation_fallback by done. by apply getTranslation_own.
    + apply prop_get_None in Hm'. right. split_and!; [done..|].
      destruct (decide (language = "en")) as [->|Hen].
      * by apply getTranslation_no_default.
      * rewrite getTranslation_fallback by done. by apply getTranslation_no_default.
Qed.

Lemma load_cached fragment (language : string) metadata supervisor σ :
  ∃ p, (load fragment language metadata supervisor σ).1 = Cached p.
Proof. unfold load. destruct (translations σ !! _); simpl; eauto. Qed.

(** X10: a call throws exactly when the index expression finds neither the
    language asked for - it is no key of the metadata and no name inherited
    from [Object.prototype] - nor "en"; in every other case the caller gets a
    promise of the cache. *)
Theorem getTranslation_throws_iff fragment (language : string) supervisor σ :
  (∃ e, (getTranslation fragment language supervisor σ).1 = Thrown e)
  ↔ ((language ∉ Object_keys translationMetadata)
     ∧ (language ∉ Object_prototype_names)
     ∧ ("en" ∉ Object_keys translationMetadata)).
Proof.
  destruct (getTranslation_resolved fragment language supervisor σ)
    as [(language' & metadata & Hm & Hlang & ->)|(Hm & Hen & ->)].
  - destruct (load_cached fragment language' metadata supervisor σ) as [p ->].
    split; [by intros [e [=]]|]. intros (Hown & Hname & Hen).
    assert (translations_entry language = None) as Hnone
      by (by apply translations_entry_None).
    destruct Hlang as [-> | [-> _]]; [congruence|].
    rewrite translations_entry_en in Hm. apply prop_get_None in Hen. congruence.
  - apply translations_entry_None in Hm as [Hown Hname].
    split; [done|]. intros _. by eexists.
Qed.

(** X11: a call only adds: every entry of the cache and every promise is left as
    it was, and at most one request is issued, also on the way through the
    fallback. *)
Theorem getTranslation_only_adds fragment (language : string) supervisor σ :
  translations σ ⊆ translations (getTranslation fragment language supervisor σ).2
  ∧ (promises σ `prefix_of` promises (getTranslation fragment language supervisor σ).2)
  ∧ (requests σ `suffix_of` requests (getTranslation fragment language supervisor σ).2)
  ∧ (length (requests (getTranslation fragment language supervisor σ).2)
     ≤ S (length (requests σ)))%nat.
Proof.
  destruct (getTranslation_effect fragment language supervisor σ)
    as [e|fingerprint p Hhit|job Hmiss]; simpl.
  - split_and!; [done..|lia].
  - split_and!; [done..|lia].
  - split_and!.
    + by apply insert_subseteq.
    + by apply prefix_app_r.
    + by apply suffix_cons_r.
    + done.
Qed.

Lemma load_twice fragment (language : string) metadata supervisor supervisor' σ :
  load fragment language metadata supervisor' (load fragment language metadata supervisor σ).2
  = load fragment language metadata supervisor σ.
Proof.
  destruct (translations σ !! fingerprint_of fragment language metadata) as [p|] eqn:Hp.
  - rewrite (load_hit _ _ _ supervisor _ p) by done. simpl. by apply load_hit.
  - rewrite (load_miss _ _ _ supervisor) by done. simpl.
    apply load_hit. simpl. apply lookup_insert_eq.
Qed.

(** X12: the languages that the index expression does not find - no keys of
    the metadata, no names inherited from [Object.prototype] - share the
    cache entry of "en": a call for one of them after a call for "en", in
    whichever mode, gets the promise of that call and changes nothing. *)
Theorem getTranslation_unlisted_shares_en fragment (language : string)
    supervisor supervisor' σ :
  language ∉ Object_keys translationMetadata →
  language ∉ Object_prototype_names →
  getTranslation fragment language supervisor'
    (getTranslation fragment "en" supervisor σ).2
  = getTranslation fragment "en" supervisor σ.
Proof.
  intros Hown Hname.
  assert (translations_entry language = None) as Hm
    by (by apply translations_entry_None).
  destruct (prop_get translationMetadata "en") as [metadata|] eqn:Hen.
  - assert (language ≠ "en") as Hne.
    { intros ->. apply translations_entry_own in Hen. congruence. }
    rewrite getTranslation_fallback by done.
    rewrite !(getTranslation_own _ _ metadata) by done. apply load_twice.
  - apply prop_get_None in Hen.
    rewrite (getTranslation_no_default _ supervisor) by done. simpl.
    destruct (decide (language = "en")) as [->|Hne].
    + by apply getTranslation_no_default.
    + rewrite getTranslation_fallback by done. by apply getTranslation_no_default.
Qed.

(** X13: nothing that failed stays in the cache: in every reachable state an
    entry of the cache is a promise that waits for the request of its own
    fingerprint, or a fulfilled one. *)
Theorem cache_holds_no_failure σ fingerprint p :
  reachable σ →
  translations σ !! fingerprint = Some p →
  ∃ state, promises σ !! p = Some state
    ∧ match state with
      | Pending job => job_fingerprint job = fingerprint
      | Fulfilled _ _ => True
      | Rejected _ | Follows _ => False
      end.
Proof.
  intros [_ Hlive]%reachable_coherent Hp.
  destruct (Hlive _ _ Hp) as [(job & Hjob & Hfp)|(language & data & Hful)].
  - by exists (Pending job).
  - by exists (Fulfilled language data).
Qed.

(** *** What a run never does *)

Lemma fetch_request_same_origin fingerprint supervisor :
  same_origin_get (fetch_request fingerprint supervisor).
Proof.
  split; [done|]. unfold fetch_request, fetch_path. cbn [url].
  destruct supervisor; [right|left]; rewrite strip_prefix_append; eauto.
Qed.

Lemma call_accounted fragment (language : string) supervisor σ :
  accounted σ → accounted (getTranslation fragment language supervisor σ).2.
Proof.
  intros (Hpromises & Hlength & Hrequests).
  destruct (getTranslation_resolved fragment language supervisor σ)
    as [(language' & metadata & Hm & _ & ->)|(_ & _ & ->)]; [|done].
  unfold load. destruct (translations σ !! _); [done|]. simpl. split_and!; simpl.
  - apply Forall_app. split; [done|]. apply Forall_singleton. by exists metadata.
  - rewrite length_app. simpl. lia.
  - apply Forall_cons. split; [apply fetch_request_same_origin | done].
Qed.

Lemma set_promise_accounted σ p state :
  accounted σ → promise_from_call state → accounted (set_promise p state σ).
Proof.
  intros (Hpromises & Hlength & Hrequests) Hstate. split_and!; simpl.
  - by apply Forall_insert.
  - by rewrite length_insert.
  - done.
Qed.

Lemma settle_accounted σ p response :
  accounted σ → accounted (settle p response σ).
Proof.
  intros Hσ. unfold settle.
  destruct (promises σ !! p) as [[job| | |]|] eqn:Hp; try done.
  destruct (fetchTranslation_settled _ response) as [data|error].
  - apply set_promise_accounted; [done|]. simpl.
    destruct Hσ as (Hpromises & _).
    destruct (proj1 (Forall_lookup _ _) Hpromises p _ Hp) as (metadata & Hm & _).
    by rewrite Hm.
  - destruct (decide (job_language job ≠ "en")).
    + apply set_promise_accounted; [|done]. by apply call_accounted.
    + by apply set_promise_accounted.
Qed.

Lemma reachable_accounted σ : reachable σ → accounted σ.
Proof.
  unfold reachable. revert σ. apply rtc_ind_r.
  - split_and!; simpl; [apply Forall_nil_2 | done | apply Forall_nil_2].
  - intros σ σ' _ Hstep Hσ. destruct Hstep.
    + by apply call_accounted.
    + by apply settle_accounted.
Qed.

(** X14: every promise has its one request and every request its one promise:
    in a reachable state as many requests were issued as promises created,
    and every entry of the cache is one of those promises. *)
Theorem requests_match_promises σ :
  reachable σ →
  length (requests σ) = length (promises σ)
  ∧ ∀ fingerprint p, translations σ !! fingerprint = Some p → p < length (promises σ).
Proof.
  intros Hσ. split; [by apply reachable_accounted|].
  intros fingerprint p Hp. apply reachable_coherent in Hσ as [_ Hlive].
  destruct (Hlive _ _ Hp) as [(job & Hjob & _)|(language & data & Hful)];
    by eapply lookup_lt_Some.
Qed.

(** X15: every request of a run carries the same-origin credentials and asks for
    a path under one of the two translation directories. *)
Theorem requests_same_origin σ request :
  reachable σ →
  request ∈ requests σ →
  credentials request = "same-origin"
  ∧ ((∃ rest, url request = "/static/translations/" +:+ rest)
     ∨ (∃ rest, url request = "/api/hassio/app/static/translations/" +:+ rest)).
Proof.
  intros (_ & _ & Hrequests)%reachable_accounted Hrequest.
  destruct (proj1 (Forall_forall _ _) Hrequests _ Hrequest) as [Hcredentials Hurl].
  split; [done|].
  assert (∀ prefix text, is_Some (strip_prefix prefix text) →
                         ∃ rest, text = prefix +:+ rest) as Hsplit.
  { intros prefix. induction prefix as [|c prefix IH]; intros text [rest Hrest].
    - by exists text.
    - destruct text as [|c' text]; simpl in Hrest; [done|].
      case_bool_decide as Hc; [|done]. subst c'.
      destruct (IH text) as [rest' ->]; [by eexists|]. by exists rest'. }
  destruct Hurl as [Hurl%Hsplit | Hurl%Hsplit]; [by left | by right].
Qed.

(** X16: whatever language the caller asked for, the language of the bundle a
    promise of the loader is fulfilled with is one the index expression
    finds: a key of the metadata or a name inherited from
    [Object.prototype]. *)
Theorem fulfilled_language_listed σ h (language : string) (data : Data) :
  reachable σ →
  settles_to σ h (Normal (language, data)) →
  language ∈ Object_keys translationMetadata ∨ language ∈ Object_prototype_names.
Proof.
  intros (Hpromises & _)%reachable_accounted Hsettles.
  remember (Normal (language, data)) as result eqn:Hresult.
  induction Hsettles as [e|p l d Hp|p e Hp|p h result Hp _ IH]; try done.
  - injection Hresult as -> ->. apply translations_entry_Some.
    apply (proj1 (Forall_lookup _ _) Hpromises p _ Hp).
  - by apply IH.
Qed.

(** *** The result of a promise *)

Lemma settles_to_unique σ h result result' :
  settles_to σ h result → settles_to σ h result' → result = result'.
Proof.
  intros Hresult. revert result'.
  induction Hresult as [e|p l d Hp|p e Hp|p h result Hp _ IH]; intros result' Hresult';
    inversion Hresult' as [|? ? ? Hp'|? ? Hp'|? ? ? Hp' Hh]; subst;
    try (rewrite Hp in Hp'; injection Hp' as ?; subst); try done.
  by apply IH.
Qed.

Lemma step_settles_to σ σ' h result :
  step σ σ' → settles_to σ h result → settles_to σ' h result.
Proof.
  intros Hstep Hresult.
  induction Hresult as [e|p l d Hp|p e Hp|p h result Hp _ IH].
  - apply settles_thrown.
  - apply settles_fulfilled. by eapply step_settled.
  - apply settles_rejected. by eapply step_settled.
  - eapply settles_follows; [|done]. by eapply step_settled.
Qed.

(** X17: a promise of the loader is settled once: it has at most one result, and
    the result it has is the one it keeps through every later call and every
    later end of a request. *)
Theorem settled_for_good σ h result :
  settles_to σ h result →
  (∀ result', settles_to σ h result' → result' = result)
  ∧ (∀ τ, rtc step σ τ → settles_to τ h result).
Proof.
  intros Hresult. split.
  - intros result' Hresult'. by eapply settles_to_unique.
  - intros τ Hτ. induction Hτ as [|σ σ1 σ2 Hstep _ IH]; [done|].
    apply IH. by eapply step_settles_to.
Qed.

(** *** The fallback, followed to its end *)

(** The state after the request of [p] has failed, when "en" is listed and
    has no entry in the cache: the handler has issued the request for "en"
    and [p] follows the promise of that request. *)
Lemma fallback_issued σ p job response error en :
  promises σ !! p = Some (Pending job) →
  fetchTranslation_settled (job_fingerprint job) response = Throw error →
  job_language job ≠ "en" →
  prop_get translationMetadata "en" = Some en →
  translations σ !! fingerprint_of (job_fragment job) "en" en = None →
  settle p response σ
  = set_promise p (Follows (Cached (length (promises σ))))
      {| translations :=
           <[fingerprint_of (job_fragment job) "en" en := length (promises σ)]>
             (delete (job_fingerprint job) (translations σ));
         promises :=
           promises σ
           ++ [Pending {| job_fragment := job_fragment job;
                          job_language := "en";
                          job_supervisor := job_supervisor job;
                          job_fingerprint := fingerprint_of (job_fragment job) "en" en |}];
         requests :=
           fetch_request (fingerprint_of (job_fragment job) "en" en) (job_supervisor job)
           :: requests σ |}.
Proof.
  intros Hp Herr Hlang Hen Hmiss.
  rewrite (settle_failure _ _ _ _ _ Hp Herr), decide_True by done.
  rewrite (getTranslation_own _ _ en) by done.
  rewrite load_miss; [done|]. simpl. by rewrite lookup_delete_None; right.
Qed.

(** X18: when the request of a language other than "en" fails and "en" is not in
    the cache yet, the handler asks for the "en" bundle of the same fragment
    in the same mode; once that request succeeds, the caller of the first
    language is given [{ language: "en", data }]. *)
Theorem fallback_delivers_en σ p job response error en status (data : Data) :
  promises σ !! p = Some (Pending job) →
  fetchTranslation_settled (job_fingerprint job) response = Throw error →
  job_language job ≠ "en" →
  prop_get translationMetadata "en" = Some en →
  translations σ !! fingerprint_of (job_fragment job) "en" en = None →
  ok status = true →
  requests (settle p response σ)
  = fetch_request (fingerprint_of (job_fragment job) "en" en) (job_supervisor job)
    :: requests σ
  ∧ settles_to
      (settle (length (promises σ)) (Http status (Normal data)) (settle p response σ))
      (Cached p) (Normal ("en", data)).
Proof.
  intros Hp Herr Hlang Hen Hmiss Hok.
  assert (p < length (promises σ)) as Hlt by (by eapply lookup_lt_Some).
  rewrite (fallback_issued _ _ _ _ _ _ Hp Herr Hlang Hen Hmiss).
  split; [done|].
  unfold settle at 1. simpl.
  rewrite list_lookup_insert_ne by lia. rewrite list_lookup_middle by done.
  simpl. rewrite Hok. simpl.
  eapply settles_follows; simpl.
  - rewrite list_lookup_insert_ne by lia.
    apply list_lookup_insert_eq. rewrite length_app. simpl. lia.
  - apply settles_fulfilled. simpl.
    apply list_lookup_insert_eq. rewrite length_insert, length_app. simpl. lia.
Qed.

(** X19: when the request for "en" that the handler has issued fails too, the
    caller of the first language is given the error of the "en" request;
    nothing more is requested, and the cache keeps neither entry. *)
Theorem fallback_fails_once σ p job response error en response' error' :
  promises σ !! p = Some (Pending job) →
  fetchTranslation_settled (job_fingerprint job) response = Throw error →
  job_language job ≠ "en" →
  prop_get translationMetadata "en" = Some en →
  translations σ !! fingerprint_of (job_fragment job) "en" en = None →
  fetchTranslation_settled (fingerprint_of (job_fragment job) "en" en) response'
  = Throw error' →
  settles_to (settle (length (promises σ)) response' (settle p response σ))
    (Cached p) (Throw error')
  ∧ requests (settle (length (promises σ)) response' (settle p response σ))
    = requests (settle p response σ)
  ∧ translations (settle (length (promises σ)) response' (settle p response σ))
    !! job_fingerprint job = None
  ∧ translations (settle (length (promises σ)) response' (settle p response σ))
    !! fingerprint_of (job_fragment job) "en" en = None.
Proof.
  intros Hp Herr Hlang Hen Hmiss Herr'.
  assert (p < length (promises σ)) as Hlt by (by eapply lookup_lt_Some).
  rewrite (fallback_issued _ _ _ _ _ _ Hp Herr Hlang Hen Hmiss).
  match goal with |- context [settle _ response' ?σ1] =>
    rewrite (settle_failure σ1 (length (promises σ))
               {| job_fragment := job_fragment job; job_language := "en";
                  job_supervisor := job_supervisor job;
                  job_fingerprint := fingerprint_of (job_fragment job) "en" en |}
               response' error')
  end; [|simpl; rewrite list_lookup_insert_ne by lia; by apply list_lookup_middle|done].
  rewrite decide_False by (by intros ?). simpl. split_and!.
  - eapply settles_follows; simpl.
    + rewrite list_lookup_insert_ne by lia.
      apply list_lookup_insert_eq. rewrite length_app. simpl. lia.
    + apply settles_rejected. simpl.
      apply list_lookup_insert_eq. rewrite length_insert, length_app. simpl. lia.
  - done.
  - rewrite lookup_delete_None.
    destruct (decide (fingerprint_of (job_fragment job) "en" en = job_fingerprint job))
      as [Heq|Hne]; [by left | right].
    rewrite lookup_insert_ne by done. apply lookup_delete_eq.
  - apply lookup_delete_eq.
Qed.

(** X20: when the request of a language other than "en" fails and the metadata
    does not list "en", the caller is given the configuration error in place
    of the error of the request, and nothing is requested. *)
Theorem fallback_without_en σ p job response error :
  promises σ !! p = Some (Pending job) →
  fetchTranslation_settled (job_fingerprint job) response = Throw error →
  job_language job ≠ "en" →
  "en" ∉ Object_keys translationMetadata →
  settles_to (settle p response σ) (Cached p)
    (Throw (Error "Language en is not found in metadata"))
  ∧ requests (settle p response σ) = requests σ
  ∧ translations (settle p response σ) !! job_fingerprint job = None.
Proof.
  intros Hp Herr Hlang Hen.
  assert (p < length (promises σ)) as Hlt by (by eapply lookup_lt_Some).
  rewrite (settle_failure _ _ _ _ _ Hp Herr), decide_True by done.
  rewrite getTranslation_no_default by done. simpl. split_and!.
  - eapply settles_follows; [|apply settles_thrown]. simpl.
    by apply list_lookup_insert_eq.
  - done.
  - apply lookup_delete_eq.
Qed.

(** *** Requests and responses *)

(** X21: [fetchTranslation] yields data exactly for a response whose status is in
    the range 200-299 and whose body parses to that data. *)
Theorem fetchTranslation_success_iff fingerprint response (data : Data) :
  fetchTranslation_settled fingerprint response = Normal data
  ↔ ∃ status, response = Http status (Normal data) ∧ (200 ≤ status ≤ 299)%N.
Proof.
  destruct response as [|status body]; simpl.
  - split; [done | by intros (? & [=] & _)].
  - unfold ok. destruct (200 <=? status)%N eqn:Hlow; destruct (status <=? 299)%N eqn:Hhigh;
      simpl; try apply N.leb_le in Hlow; try apply N.leb_le in Hhigh;
      try apply N.leb_gt in Hlow; try apply N.leb_gt in Hhigh;
      (split; [intros Hbody | intros (status' & [= <- <-] & Hrange)]);
      try done; try lia.
    subst body. eauto.
Qed.

Lemma replace_absent (pattern replacement text : string) :
  includes text pattern = false → replace pattern replacement text = text.
Proof.
  induction text as [|c text IH]; simpl.
  - by destruct (strip_prefix pattern EmptyString).
  - destruct (strip_prefix pattern (String c text)); [done|].
    intros Habsent. by rewrite IH.
Qed.

Lemma strip_prefix_Some (pattern text rest : string) :
  strip_prefix pattern text = Some rest → text = pattern +:+ rest.
Proof.
  revert text. induction pattern as [|c pattern IH]; intros text; simpl.
  - by intros [= ->].
  - destruct text as [|c' text]; [done|]. case_bool_decide as Hc; [|done].
    intros ->%IH. by subst c'.
Qed.

(** [replace] takes out the first occurrence of the pattern. *)
Lemma replace_first_occurrence (pattern replacement text : string) :
  includes text pattern = true →
  ∃ before after,
    text = before +:+ pattern +:+ after
    ∧ replace pattern replacement text = before +:+ replacement +:+ after
    ∧ ∀ before' after', text = before' +:+ pattern +:+ after' →
        (String.length before ≤ String.length before')%nat.
Proof.
  assert (∀ t rest, strip_prefix pattern t = Some rest →
            t = EmptyString +:+ pattern +:+ rest
            ∧ replacement +:+ rest = EmptyString +:+ replacement +:+ rest
            ∧ ∀ before' after', t = before' +:+ pattern +:+ after' →
                (String.length EmptyString ≤ String.length before')%nat) as Hhere.
  { intros t rest Hrest%strip_prefix_Some. split_and!; [done|done|].
    intros before' after' _. simpl. lia. }
  induction text as [|c text IH]; simpl.
  - destruct (strip_prefix pattern EmptyString) as [rest|] eqn:Hrest; [|done].
    intros _. exists EmptyString, rest. by apply Hhere.
  - destruct (strip_prefix pattern (String c text)) as [rest|] eqn:Hrest.
    + intros _. exists EmptyString, rest. by apply Hhere.
    + intros (before & after & Htext & Hreplace & Hfirst)%IH.
      exists (String c before), after. split_and!.
      * by rewrite Htext at 1.
      * by rewrite Hreplace.
      * intros before' after' Hsplit. destruct before' as [|c' before'].
        -- change (String c text = pattern +:+ after') in Hsplit.
           rewrite Hsplit, strip_prefix_append in Hrest. done.
        -- change (String c text = String c' (before' +:+ pattern +:+ after')) in Hsplit.
           injection Hsplit as _ Hsplit. apply Hfirst in Hsplit. simpl. lia.
Qed.

(** X22: in supervisor mode a fingerprint that does not hold "supervisor/" is
    requested as it is under the supervisor directory; of one that holds it,
    what is requested is the text before and the text after its first
    occurrence of "supervisor/". *)
Theorem fetch_path_supervisor fingerprint :
  (includes fingerprint "supervisor/" = false →
   fetch_path fingerprint true
   = "/api/hassio/app/static/translations/" +:+ fingerprint)
  ∧ (includes fingerprint "supervisor/" = true →
     ∃ before after,
       fingerprint = before +:+ "supervisor/" +:+ after
       ∧ fetch_path fingerprint true
         = "/api/hassio/app/static/translations/" +:+ before +:+ after
       ∧ ∀ before' after', fingerprint = before' +:+ "supervisor/" +:+ after' →
           (String.length before ≤ String.length before')%nat).
Proof.
  unfold fetch_path. split.
  - intros Habsent. by rewrite replace_absent.
  - intros (before & after & Htext & Hreplace & Hfirst)%(replace_first_occurrence _ EmptyString).
    exists before, after. split_and!; [done| |done]. by rewrite Hreplace.
Qed.

End Properties.

(** ** What the resolver can return *)

(** C9, as the code has it: on a string, [findAvailableLanguage] returns
    none, a key of the metadata, one of the alias values "zh-Hans" and
    "zh-Hant", or - the [in] operator seeing the names every object inherits
    from [Object.prototype] - the argument itself when it is such a name and
    the inherited value when its lower-case form is one; for every other
    argument the result is none, a key or an alias value.  The alias branch
    returns its value whether or not the metadata lists it, and the last
    fallback of [getLocalLanguage] is not checked either, so that for some
    metadata both functions return a code that the metadata lacks. *)
Theorem findAvailableLanguage_range :
  (∀ table s result,
     findAvailableLanguage table (VString s) = Normal result →
     result = VUndefined
     ∨ (∃ code, result = VString code
          ∧ (code ∈ Object_keys table ∨ code = "zh-Hans" ∨ code = "zh-Hant"))
     ∨ (result = VString s ∧ s ∈ Object_prototype_names)
     ∨ (result = inherited_value (toLowerCase s)
        ∧ toLowerCase s ∈ Object_prototype_names))
  ∧ (∀ table s result,
       s ∉ Object_prototype_names →
       toLowerCase s ∉ Object_prototype_names →
       findAvailableLanguage table (VString s) = Normal result →
       result = VUndefined
       ∨ ∃ code, result = VString code
           ∧ (code ∈ Object_keys table ∨ code = "zh-Hans" ∨ code = "zh-Hant"))
  ∧ (∀ table s target,
       s ∉ Object_keys table →
       prop_get LOCALE_LOOKUP (toLowerCase s) = Some target →
       findAvailableLanguage table (VString s) = Normal (VString target))
  ∧ (∃ table s code,
       findAvailableLanguage table (VString s) = Normal (VString code)
       ∧ code ∉ Object_keys table)
  ∧ (∃ table parse STORAGE navigator code,
       getLocalLanguage table parse STORAGE navigator = Normal (VString code)
       ∧ code ≠ "en" ∧ code ∉ Object_keys table)
  ∧ (∃ table parse STORAGE navigator,
       getLocalLanguage table parse STORAGE navigator = Normal (VString "en")
       ∧ "en" ∉ Object_keys table).
Proof.
  split_and!.
  - apply findAvailableLanguage_results.
  - apply findAvailableLanguage_ordinary.
  - intros table s target. apply findAvailableLanguage_alias.
  - exists sample_metadata, "zh-CN", "zh-Hans". split; [reflexivity|by_evaluation].
  - exists sample_metadata, JSON_parse_literal, {| selectedLanguage := None |},
      {| navigator_languages := Some ["zh-TW"; "en"]; navigator_language := "zh-TW" |},
      "zh-Hant".
    split_and!; [reflexivity|done|by_evaluation].
  - exists [("fr", {| hash := "f00" |})], JSON_parse_literal, {| selectedLanguage := None |},
      {| navigator_languages := Some ["de-CH"; "de"]; navigator_language := "de-CH" |}.
    split; [reflexivity|by_evaluation].
Qed.

(** ** The resolver and the loader on the sample data *)

Example stored_selection_first :
  getLocalLanguage sample_metadata JSON_parse_literal
    {| selectedLanguage := Some (quoted "fr") |}
    {| navigator_languages := Some ["en-US"; "en"]; navigator_language := "en-US" |}
  = Normal (VString "fr").
Proof. reflexivity. Qed.

Example preferred_languages_in_order :
  getLocalLanguage sample_metadata JSON_parse_literal
    {| selectedLanguage := None |}
    {| navigator_languages := Some ["de-CH"; "FR"; "en"]; navigator_language := "de-CH" |}
  = Normal (VString "fr").
Proof. reflexivity. Qed.

Example base_subtag_of_primary_language :
  getLocalLanguage sample_metadata JSON_parse_literal
    {| selectedLanguage := None |}
    {| navigator_languages := None; navigator_language := "fr-CA" |}
  = Normal (VString "fr").
Proof. reflexivity. Qed.

Example final_fallback :
  getLocalLanguage sample_metadata JSON_parse_literal
    {| selectedLanguage := Some "null" |}
    {| navigator_languages := Some []; navigator_language := "de" |}
  = Normal (VString "en").
Proof. reflexivity. Qed.

(** Two calls before the request ends: one request, the same promise. *)
Example concurrent_calls_share_the_request :
  getTranslation sample_metadata None "fr" false
    (getTranslation sample_metadata None "fr" false (initial (Data:=string))).2
  = getTranslation sample_metadata None "fr" false (initial (Data:=string))
  ∧ url <$> requests (getTranslation sample_metadata None "fr" false
                        (initial (Data:=string))).2
    = [ "/static/translations/fr-f00.json" ].
Proof. split; reflexivity. Qed.

(** The failed request of [fr_called] is followed by the English bundle, and
    the French one is asked for again by the next call. *)
Example failed_request_run :
  promises fr_failed !! 0 = Some (Follows (Cached 1))
  ∧ translations fr_failed !! "logbook/fr-f00.json" = None
  ∧ promises en_loaded !! 1 = Some (Fulfilled "en" "bundle")
  ∧ url <$> requests (getTranslation sample_metadata (Some "logbook") "fr" false en_loaded).2
    = [ "/static/translations/logbook/fr-f00.json";
        "/static/translations/logbook/en-abc.json";
        "/static/translations/logbook/fr-f00.json" ].
Proof. split_and!; reflexivity. Qed.

(** ** The theorems on the sample data *)

Lemma getTranslation_missing_metadata_witness :
  getTranslation sample_metadata (Some "logbook") "xx" false (initial (Data:=string))
  = getTranslation sample_metadata (Some "logbook") "en" false initial
  ∧ getTranslation [("fr", {| hash := "f00" |})] None "en" true (initial (Data:=string))
    = (Thrown (Error "Language en is not found in metadata"), initial).
Proof.
  split.
  - destruct (getTranslation_missing_metadata sample_metadata (Data:=string)
                (Some "logbook") "xx" false initial) as [Hordinary _]; [by_evaluation|].
    destruct Hordinary as [Hfallback _]; [by_evaluation | by apply Hfallback].
  - destruct (getTranslation_missing_metadata [("fr", {| hash := "f00" |})] (Data:=string)
                None "en" true initial) as [Hordinary _]; [by_evaluation|].
    destruct Hordinary as [_ Hfatal]; [by_evaluation | by apply Hfatal].
Defined.

(** C1 as the specification states it fails on a language that is a name
    inherited from [Object.prototype]: "constructor" is no key of the
    metadata and is not "en", and the call asks for a bundle of its own
    where the call for "en" asks for the English one. *)
Lemma getTranslation_finds_inherited_name :
  ("constructor" ∉ Object_keys sample_metadata)
  ∧ "constructor" ≠ "en"
  ∧ url <$> requests (getTranslation sample_metadata None "constructor" false
                        (initial (Data:=string))).2
    = [ "/static/translations/constructor-undefined.json" ]
  ∧ url <$> requests (getTranslation sample_metadata None "en" false
                        (initial (Data:=string))).2
    = [ "/static/translations/en-abc.json" ]
  ∧ getTranslation sample_metadata None "constructor" false (initial (Data:=string))
    ≠ getTranslation sample_metadata None "en" false initial.
Proof.
  split_and!; [by_evaluation | done | reflexivity | reflexivity |].
  intros Hsame. apply (f_equal (λ r, url <$> requests r.2)) in Hsame.
  vm_compute in Hsame. discriminate Hsame.
Qed.

Lemma fr_called_reachable : reachable sample_metadata fr_called.
Proof. apply rtc_once, step_call. Qed.

Lemma fetch_failure_falls_back_witness :
  settles_to en_loaded (Cached 0) (Normal ("en", "bundle"))
  ∧ requests (getTranslation sample_metadata (Some "logbook") "fr" false fr_failed).2
    = fetch_request "logbook/fr-f00.json" false :: requests fr_failed.
Proof.
  destruct (fetch_failure_falls_back sample_metadata fr_called 0 fr_job
              (Http 404 (Throw SyntaxError))
              (Error "Fail to fetch translation logbook/fr-f00.json: HTTP response status is 404")
              fr_called_reachable eq_refl eq_refl)
    as (_ & _ & _ & _ & Hgone & Hretry & Hfallback & _).
  split.
  - destruct Hfallback as [_ Hlater]; [done|].
    destruct (Hlater en_loaded) as [_ Hsame]; [apply rtc_once, step_settle|].
    apply Hsame. by apply settles_fulfilled.
  - destruct (Hretry (Some "logbook") "fr" {| hash := "f00" |} false eq_refl eq_refl)
      as [Hnew | (_ & _ & (job & Hjob & Hfingerprint) & _)]; [exact Hnew|].
    vm_compute in Hjob. injection Hjob as <-. discriminate Hfingerprint.
Defined.

(** C2 as the specification states it fails when "en" has the fingerprint of
    the language whose request failed: the fallback call stores its pending
    entry under that fingerprint, and the next call for the failed language
    is given that entry and issues no request. *)
Lemma failed_fingerprint_not_requested_again :
  reachable colliding_metadata en_a_failed
  ∧ fingerprint_of None "en-a" {| hash := "b" |} = "en-a-b.json"
  ∧ fingerprint_of None "en" {| hash := "a-b" |} = "en-a-b.json"
  ∧ promises en_a_called !! 0
    = Some (Pending {| job_fragment := None; job_language := "en-a";
                       job_supervisor := false; job_fingerprint := "en-a-b.json" |})
  ∧ promises en_a_failed !! 0 = Some (Follows (Cached 1))
  ∧ translations en_a_failed !! "en-a-b.json" = Some 1
  ∧ getTranslation colliding_metadata None "en-a" false en_a_failed
    = (Cached 1, en_a_failed)
  ∧ requests (getTranslation colliding_metadata None "en-a" false en_a_failed).2
    = requests en_a_failed.
Proof.
  split_and!; try reflexivity.
  eapply rtc_r; [apply rtc_once, step_call | apply step_settle].
Qed.

Lemma en_called_reachable : reachable sample_metadata en_called.
Proof. apply rtc_once, step_call. Qed.

Lemma one_request_per_fingerprint_witness :
  getTranslation sample_metadata (Some "logbook") "en" true en_called
  = (Cached 0, en_called)
  ∧ requests en_called
    = [ {| url := "/static/translations/logbook/en-abc.json";
           credentials := "same-origin" |} ].
Proof.
  destruct (one_request_per_fingerprint sample_metadata en_called en_called_reachable)
    as (_ & _ & Hshared).
  split; [|reflexivity].
  apply (Hshared 0 (Some "logbook") "en" {| hash := "abc" |} true eq_refl).
  eexists. split; reflexivity.
Defined.

Lemma getTranslation_request_witness :
  requests (getTranslation sample_metadata (Some "logbook") "en" false
              (initial (Data:=string))).2
  = [ {| url := "/static/translations/logbook/en-abc.json";
         credentials := "same-origin" |} ]
  ∧ requests (getTranslation sample_metadata (Some "supervisor") "en" true
                (initial (Data:=string))).2
    = [ {| url := "/api/hassio/app/static/translations/en-abc.json";
           credentials := "same-origin" |} ].
Proof.
  split.
  - destruct (getTranslation_request sample_metadata (Data:=string) (Some "logbook") "en"
                {| hash := "abc" |} false initial eq_refl eq_refl)
      as (_ & _ & Hrequest & _).
    exact Hrequest.
  - destruct (getTranslation_request sample_metadata (Data:=string) (Some "supervisor") "en"
                {| hash := "abc" |} true initial eq_refl eq_refl)
      as (_ & _ & Hrequest & _).
    exact Hrequest.
Defined.

(** C4 as the specification states it fails on a fragment that holds
    "supervisor/" elsewhere than at its start: the code removes that
    occurrence, the stated path keeps it. *)
Lemma fetch_path_removes_inner_occurrence :
  url <$> requests (getTranslation sample_metadata (Some "my-supervisor") "en" true
                      (initial (Data:=string))).2
  = [ "/api/hassio/app/static/translations/my-en-abc.json" ]
  ∧ spec_fetch_path (Some "my-supervisor") "en" {| hash := "abc" |} true
    = "/api/hassio/app/static/translations/my-supervisor/en-abc.json"
  ∧ url <$> requests (getTranslation sample_metadata (Some "my-supervisor") "en" true
                        (initial (Data:=string))).2
    ≠ [ spec_fetch_path (Some "my-supervisor") "en" {| hash := "abc" |} true ].
Proof. split_and!; [reflexivity | reflexivity | by vm_compute]. Qed.

Lemma findAvailableLanguage_exact_witness :
  findAvailableLanguage sample_metadata (VString "fr") = Normal (VString "fr").
Proof. apply findAvailableLanguage_exact. by_evaluation. Defined.

Lemma findAvailableLanguage_chinese_witness :
  findAvailableLanguage sample_metadata (VString "zh-CN") = Normal (VString "zh-Hans")
  ∧ findAvailableLanguage sample_metadata (VString "ZH-hk") = Normal (VString "zh-Hant").
Proof.
  split.
  - destruct (findAvailableLanguage_chinese sample_metadata "zh-CN") as [Hans _];
      [by_evaluation | apply Hans; by_evaluation].
  - destruct (findAvailableLanguage_chinese sample_metadata "ZH-hk") as [_ Hant];
      [by_evaluation | apply Hant; by_evaluation].
Defined.

(** C5 as the specification states it fails on a signal whose lower-case form
    is a name inherited from [Object.prototype], and on a stored value that
    is not a string: what is returned is the inherited built-in, or the
    stored value itself, and no language code. *)
Lemma getLocalLanguage_returns_no_code :
  getLocalLanguage sample_metadata JSON_parse_literal
    {| selectedLanguage := None |}
    {| navigator_languages := Some ["CONSTRUCTOR"; "fr"]; navigator_language := "fr" |}
  = Normal (inherited_value "constructor")
  ∧ (∀ code, inherited_value "constructor" ≠ VString code)
  ∧ getLocalLanguage [("en", {| hash := "abc" |}); ("true", {| hash := "701" |})]
      JSON_parse_literal
      {| selectedLanguage := Some "true" |}
      {| navigator_languages := Some ["en"]; navigator_language := "en" |}
    = Normal (VOther true (Some "true")).
Proof. split_and!; [reflexivity | done | reflexivity]. Qed.

Lemma getLocalLanguage_malformed_store_witness :
  stored_language sample_metadata JSON_parse_literal {| selectedLanguage := Some "{fr" |}
  = Normal None
  ∧ getLocalLanguage sample_metadata JSON_parse_literal
      {| selectedLanguage := Some "{fr" |}
      {| navigator_languages := Some ["de"; "FR"; "en"]; navigator_language := "de" |}
    = Normal (VString "fr")
  ∧ getLocalLanguage sample_metadata JSON_parse_literal
      {| selectedLanguage := Some "{fr" |}
      {| navigator_languages := Some ["de"; "FR"; "en"]; navigator_language := "de" |}
    = getLocalLanguage sample_metadata JSON_parse_literal
        {| selectedLanguage := None |}
        {| navigator_languages := Some ["de"; "FR"; "en"]; navigator_language := "de" |}.
Proof.
  exact (getLocalLanguage_malformed_store sample_metadata JSON_parse_literal
           {| selectedLanguage := Some "{fr" |}
           {| navigator_languages := Some ["de"; "FR"; "en"]; navigator_language := "de" |}
           "{fr" SyntaxError eq_refl eq_refl).
Defined.

(** C9 as the specification states it fails on an argument that is, or
    lower-cases to, a name inherited from [Object.prototype]: the result is
    the argument, which is no key and no alias value, or the inherited
    built-in, which is no code at all. *)
Lemma findAvailableLanguage_returns_inherited :
  findAvailableLanguage sample_metadata (VString "constructor")
  = Normal (VString "constructor")
  ∧ ("constructor" ∉ Object_keys sample_metadata)
  ∧ "constructor" ≠ "zh-Hans"
  ∧ "constructor" ≠ "zh-Hant"
  ∧ findAvailableLanguage sample_metadata (VString "Constructor")
    = Normal (inherited_value "constructor")
  ∧ inherited_value "constructor" ≠ VUndefined
  ∧ (∀ code, inherited_value "constructor" ≠ VString code).
Proof. split_and!; [reflexivity | by_evaluation | done | done | reflexivity | done | done]. Qed.

Lemma getTranslation_shared_between_modes_witness :
  getTranslation sample_metadata (Some "logbook") "en" true en_called
  = (Cached 0, en_called)
  ∧ url <$> requests (getTranslation sample_metadata (Some "logbook") "en" true en_called).2
    = [ "/static/translations/logbook/en-abc.json" ].
Proof.
  destruct (getTranslation_shared_between_modes sample_metadata (Data:=string)
              (Some "logbook") "en" {| hash := "abc" |} eq_refl)
    as (_ & Hafter & _).
  assert (getTranslation sample_metadata (Some "logbook") "en" true en_called
          = (Cached 0, en_called)) as Hsame by exact (Hafter initial false).
  split; [exact Hsame|]. by rewrite Hsame.
Defined.

(** ** The further properties on the sample data *)

Lemma findAvailableLanguage_first_match_witness :
  findAvailableLanguage regional_metadata (VString "PT-br") = Normal (VString "pt-BR").
Proof.
  apply (findAvailableLanguage_first_match regional_metadata "PT-br" "pt-BR"
           ["en"] ["pt-br"]);
    [by_evaluation | by_evaluation | by_evaluation | by_evaluation
    | reflexivity | reflexivity |].
  intros k Hk%list_elem_of_singleton. by subst k.
Defined.

Lemma findAvailableLanguage_case_insensitive_witness :
  findAvailableLanguage sample_metadata (VString "FR")
  = findAvailableLanguage sample_metadata (VString "Fr").
Proof.
  apply findAvailableLanguage_case_insensitive;
    [by_evaluation | by_evaluation | by_evaluation | by_evaluation | reflexivity].
Defined.

Lemma findAvailableLanguage_idempotent_witness :
  findAvailableLanguage chinese_metadata (VString "zh-Hant") = Normal (VString "zh-Hant")
  ∧ ("zh-Hant" ∈ Object_keys chinese_metadata
     ∨ ("zh-Hant" = "zh-TW" ∧ "zh-TW" ∈ Object_prototype_names)).
Proof.
  apply (findAvailableLanguage_idempotent chinese_metadata "zh-TW" "zh-Hant");
    [by_evaluation | by_evaluation | reflexivity].
Defined.

Lemma getLocalLanguage_stored_first_witness :
  getLocalLanguage sample_metadata JSON_parse_literal
    {| selectedLanguage := Some (quoted "fr") |}
    {| navigator_languages := Some ["en"]; navigator_language := "en" |}
  = Normal (VString "fr").
Proof.
  apply (getLocalLanguage_stored_first sample_metadata JSON_parse_literal _ _
           (quoted "fr") "fr"); [reflexivity | done | reflexivity | done | by_evaluation].
Defined.

Lemma getLocalLanguage_stored_passed_over_witness :
  getLocalLanguage sample_metadata JSON_parse_literal
    {| selectedLanguage := Some "true" |}
    {| navigator_languages := None; navigator_language := "fr" |}
  = getLocalLanguage sample_metadata JSON_parse_literal
      {| selectedLanguage := None |}
      {| navigator_languages := None; navigator_language := "fr" |}.
Proof.
  apply (getLocalLanguage_stored_passed_over sample_metadata JSON_parse_literal _ _ "true");
    [reflexivity|].
  right. exists (VOther true (Some "true")). split; [reflexivity|].
  right. left. by exists TypeError.
Defined.

Lemma getLocalLanguage_supported_witness :
  ∃ code,
    getLocalLanguage chinese_metadata JSON_parse_literal
      {| selectedLanguage := None |}
      {| navigator_languages := Some ["zh-HK"]; navigator_language := "zh-HK" |}
    = Normal (VString code)
    ∧ code ∈ Object_keys chinese_metadata.
Proof.
  apply getLocalLanguage_supported; [by_evaluation | by_evaluation | by_evaluation |].
  intros signal Hsignal. vm_compute in Hsignal.
  repeat (apply elem_of_cons in Hsignal as [-> | Hsignal];
          [eexists; split_and!; [reflexivity | by_evaluation | by_evaluation] |]).
  by apply elem_of_nil in Hsignal.
Defined.

Lemma getUserLanguage_as_stored_witness :
  getLocalLanguage sample_metadata JSON_parse_literal
    {| selectedLanguage := Some (quoted "FR") |}
    {| navigator_languages := None; navigator_language := "en" |}
  = Normal (VString "fr").
Proof.
  apply (getUserLanguage_as_stored sample_metadata JSON_parse_literal
           {| preference_language := "FR" |} _ _ (quoted "FR"));
    [reflexivity | reflexivity | done | reflexivity].
Defined.

Lemma getTranslation_unlisted_shares_en_witness :
  getTranslation sample_metadata (Some "logbook") "xx" true en_called
  = getTranslation sample_metadata (Some "logbook") "en" false (initial (Data:=string)).
Proof.
  apply (getTranslation_unlisted_shares_en sample_metadata (Data:=string)
           (Some "logbook") "xx" false true initial); by_evaluation.
Defined.

Lemma fr_failed_reachable : reachable sample_metadata fr_failed.
Proof. eapply rtc_r; [apply fr_called_reachable | apply step_settle]. Qed.

Lemma en_loaded_reachable : reachable sample_metadata en_loaded.
Proof. eapply rtc_r; [apply fr_failed_reachable | apply step_settle]. Qed.

Lemma cache_holds_no_failure_witness :
  ∃ state : promise (Data:=string),
    promises fr_failed !! 1 = Some state
    ∧ match state with
      | Pending job => job_fingerprint job = "logbook/en-abc.json"
      | Fulfilled _ _ => True
      | Rejected _ | Follows _ => False
      end.
Proof.
  apply (cache_holds_no_failure sample_metadata fr_failed "logbook/en-abc.json" 1);
    [apply fr_failed_reachable | reflexivity].
Defined.

Lemma requests_match_promises_witness :
  length (requests en_loaded) = length (promises en_loaded)
  ∧ ∀ fingerprint p, translations en_loaded !! fingerprint = Some p →
                     p < length (promises en_loaded).
Proof. apply (requests_match_promises sample_metadata), en_loaded_reachable. Defined.

Lemma requests_same_origin_witness :
  credentials (fetch_request "logbook/fr-f00.json" false) = "same-origin"
  ∧ ((∃ rest, url (fetch_request "logbook/fr-f00.json" false)
              = "/static/translations/" +:+ rest)
     ∨ (∃ rest, url (fetch_request "logbook/fr-f00.json" false)
                = "/api/hassio/app/static/translations/" +:+ rest)).
Proof.
  apply (requests_same_origin sample_metadata fr_failed);
    [apply fr_failed_reachable|].
  assert (requests fr_failed
          = [ fetch_request "logbook/en-abc.json" false;
              fetch_request "logbook/fr-f00.json" false ]) as -> by reflexivity.
  rewrite !elem_of_cons. auto.
Defined.

Lemma fulfilled_language_listed_witness :
  "en" ∈ Object_keys sample_metadata ∨ "en" ∈ Object_prototype_names.
Proof.
  apply (fulfilled_language_listed sample_metadata en_loaded (Cached 0) "en" "bundle");
    [apply en_loaded_reachable|].
  eapply settles_follows; [reflexivity|]. by apply settles_fulfilled.
Defined.

Lemma settled_for_good_witness :
  settles_to (settle sample_metadata 0 NetworkError en_loaded) (Cached 0)
    (Normal ("en", "bundle")).
Proof.
  destruct (settled_for_good sample_metadata en_loaded (Cached 0) (Normal ("en", "bundle")))
    as [_ Hlater].
  - eapply settles_follows; [reflexivity|]. by apply settles_fulfilled.
  - apply Hlater, rtc_once, step_settle.
Defined.

Lemma fallback_delivers_en_witness :
  requests fr_failed
  = [ fetch_request "logbook/en-abc.json" false; fetch_request "logbook/fr-f00.json" false ]
  ∧ settles_to en_loaded (Cached 0) (Normal ("en", "bundle")).
Proof.
  apply (fallback_delivers_en sample_metadata fr_called 0 fr_job
           (Http 404 (Throw SyntaxError))
           (Error "Fail to fetch translation logbook/fr-f00.json: HTTP response status is 404")
           {| hash := "abc" |} 200%N "bundle"); done.
Defined.

Lemma fallback_fails_once_witness :
  settles_to (settle sample_metadata 1 NetworkError fr_failed) (Cached 0) (Throw TypeError)
  ∧ requests (settle sample_metadata 1 NetworkError fr_failed) = requests fr_failed
  ∧ translations (settle sample_metadata 1 NetworkError fr_failed)
    !! "logbook/fr-f00.json" = None
  ∧ translations (settle sample_metadata 1 NetworkError fr_failed)
    !! "logbook/en-abc.json" = None.
Proof.
  apply (fallback_fails_once sample_metadata fr_called 0 fr_job
           (Http 404 (Throw SyntaxError))
           (Error "Fail to fetch translation logbook/fr-f00.json: HTTP response status is 404")
           {| hash := "abc" |} NetworkError TypeError); done.
Defined.

Lemma fallback_without_en_witness :
  settles_to (settle fr_only 0 (Http 500 (Throw SyntaxError)) fr_only_called) (Cached 0)
    (Throw (Error "Language en is not found in metadata"))
  ∧ requests (settle fr_only 0 (Http 500 (Throw SyntaxError)) fr_only_called)
    = requests fr_only_called
  ∧ translations (settle fr_only 0 (Http 500 (Throw SyntaxError)) fr_only_called)
    !! "logbook/fr-f00.json" = None.
Proof.
  apply (fallback_without_en fr_only fr_only_called 0 fr_job
           (Http 500 (Throw SyntaxError))
           (Error "Fail to fetch translation logbook/fr-f00.json: HTTP response status is 500"));
    [reflexivity | reflexivity | done | by_evaluation].
Defined.
